(** * Implicit-key treap (package [treap], file [treap/treap.go])

    The package keeps a sequence of Go [int]s in a binary tree whose nodes
    carry a random priority and a cached subtree size.  This development
    embeds the package function by function and settles the properties its
    specification states about it.

    Modelling choices.

    - A [*node] is either the nil pointer or the address of a struct that
      exclusively owns its two children (the package never shares a node
      between two parents as long as a handle consumed by [Merge] or [Split]
      is not used again, which the package documentation forbids).  Under
      that discipline the in-place updates [n.lson = ...], [n.rson = ...],
      [n.size = ...] are the same as rebuilding the node, so a [*node] is a
      value of the inductive type [node] below.  [sync], [merge], [split]
      and the functions that only read ([Find], [Size], [Export]) are
      embedded a second time over an explicit store of addresses
      ([Module Store]): [merge_store] and [split_store] show that the
      in-place versions, run on trees that share no node, build the trees
      of the first embedding and touch nothing else, and the reading
      functions are shown to hand the store back as they got it.
    - Go's [int] is a 64-bit two's complement integer, modelled as [Z].  The
      subtraction [index - 1] on a caller-supplied index is written with its
      wrap-around.  Sizes are node counts: they stay far below [2^63] on any
      machine, so the additions in [sync] are plain additions.
    - [rand.Int()] is the only effect besides the updates of the tree; the
      outcomes still to be drawn are threaded through as an explicit state.
    - A run-time panic (index out of range, [make] with a negative length)
      is the result [None]. *)

From stdpp Require Import base option list gmap.
From Stdlib Require Import ZArith Lia.

#[local] Set Warnings "-clear-no-such-hyp".

Local Open Scope Z_scope.

(** ** Go integers *)

(** Two's complement wrap-around of a 64-bit [int]. *)
Definition wrap (z : Z) : Z := (z + 2 ^ 63) mod 2 ^ 64 - 2 ^ 63.

(** The values a Go [int] can hold. *)
Definition is_int (z : Z) : Prop := - 2 ^ 63 <= z < 2 ^ 63.

(** ** The random source *)

(** The outcomes [rand.Int()] is going to return, in order. *)
Definition rng : Type := nat → Z.

Definition rand_Int (g : rng) : Z * rng := (g 0%nat, λ k, g (S k)).

(** A source that replays the given draws and then returns [0]. *)
Definition draws (ps : list Z) : rng := λ k, nth k ps 0.

(** ** Nodes *)

(** [*node]: [Nil] is the nil pointer. *)
Inductive node : Type :=
| Nil
| Node (value size priority : Z) (lson rson : node).

(** [&node{value: value, size: 1, priority: p, lson: nil, rson: nil}] *)
Definition new_node (value p : Z) : node := Node value 1 p Nil Nil.

(** [sync]: recompute the cached size from the children's cached sizes. *)
Definition sync (n : node) : node :=
  match n with
  | Nil => Nil
  | Node v _ p l r =>
      let s := 1 in
      let s := match l with Nil => s | Node _ ls _ _ _ => s + ls end in
      let s := match r with Nil => s | Node _ rs _ _ _ => s + rs end in
      Node v s p l r
  end.

(** [merge]: the root with the strictly greater priority stays on top; on a
    tie the second tree wins.  The recursion goes down the right spine of
    [n1] and the left spine of [n2]. *)
Fixpoint merge (n1 n2 : node) {struct n1} : node :=
  match n1 with
  | Nil => n2
  | Node v1 s1 p1 l1 r1 =>
      (fix merge_into (n2 : node) {struct n2} : node :=
         match n2 with
         | Nil => n1
         | Node v2 s2 p2 l2 r2 =>
             if p1 >? p2
             then sync (Node v1 s1 p1 l1 (merge r1 n2))
             else sync (Node v2 s2 p2 (merge_into l2) r2)
         end) n2
  end.

(** [split]: note that the recursive call on the right son receives
    [index] itself, as in the source. *)
Fixpoint split (n : node) (index : Z) : node * node :=
  match n with
  | Nil => (Nil, Nil)
  | Node v s p lson rson =>
      if index <? 0 then (Nil, n)
      else if index >=? s then (n, Nil)
      else
        let position := index in
        let position :=
          match lson with Nil => position | Node _ ls _ _ _ => position - ls end in
        if position <? 0 then
          let '(l, r) := split lson index in
          (l, sync (Node v s p r rson))
        else if position >? 0 then
          let '(l, r) := split rson index in
          (sync (Node v s p lson l), r)
        else
          (sync (Node v s p lson Nil), rson)
  end.

(** ** Slices *)

(** [values[position] = v]; out of range is a panic. *)
Definition slice_set (values : list Z) (position v : Z) : option (list Z) :=
  if (0 <=? position) && (position <? Z.of_nat (length values))
  then Some (<[Z.to_nat position := v]> values)
  else None.

(** [export]: the slice is shared with the caller, so it is threaded
    through the calls. *)
Fixpoint export (values : list Z) (position : Z) (n : node) : option (list Z) :=
  match n with
  | Nil => Some values
  | Node v _ _ lson rson =>
      match
        match lson with
        | Nil => Some (values, position)
        | Node _ ls _ _ _ =>
            match export values position lson with
            | Some values => Some (values, position + ls)
            | None => None
            end
        end
      with
      | Some (values, position) =>
          match slice_set values position v with
          | Some values => export values (position + 1) rson
          | None => None
          end
      | None => None
      end
  end.

(** ** Handles *)

Record Treap : Type := mkTreap { root : node }.

(** [*Treap]: [None] is the nil handle. *)
Definition handle : Type := option Treap.

(** The loop [for _, value := range values] of [PushFront]. *)
Fixpoint PushFront_loop (values : list Z) (vroot : node) (g : rng) : node * rng :=
  match values with
  | [] => (vroot, g)
  | value :: values =>
      let '(p, g) := rand_Int g in
      let n := new_node value p in
      PushFront_loop values (merge n vroot) g
  end.

Definition PushFront (t : handle) (values : list Z) (g : rng) : handle * rng :=
  match t with
  | None => (None, g)
  | Some t =>
      let '(vroot, g) := PushFront_loop values Nil g in
      (Some (mkTreap (merge vroot (root t))), g)
  end.

(** The loop [for _, value := range values] of [PushBack]. *)
Fixpoint PushBack_loop (values : list Z) (vroot : node) (g : rng) : node * rng :=
  match values with
  | [] => (vroot, g)
  | value :: values =>
      let '(p, g) := rand_Int g in
      let n := new_node value p in
      PushBack_loop values (merge vroot n) g
  end.

Definition PushBack (t : handle) (values : list Z) (g : rng) : handle * rng :=
  match t with
  | None => (None, g)
  | Some t =>
      let '(vroot, g) := PushBack_loop values Nil g in
      (Some (mkTreap (merge (root t) vroot)), g)
  end.

Definition Create (values : list Z) (g : rng) : handle * rng :=
  PushBack (Some (mkTreap Nil)) values g.

Definition Merge (t1 t2 : handle) : handle :=
  match t1, t2 with
  | None, _ => t2
  | _, None => t1
  | Some a, Some b => Some (mkTreap (merge (root a) (root b)))
  end.

Definition Split (t : handle) (index : Z) : handle * handle :=
  match t with
  | None => (None, None)
  | Some t =>
      let '(l, r) := split (root t) index in
      (Some (mkTreap l), Some (mkTreap r))
  end.

Definition Insert (t : handle) (index value : Z) (g : rng) : handle * rng :=
  match t with
  | None => (None, g)
  | Some t' =>
      match root t' with
      | Nil =>
          let '(p, g) := rand_Int g in
          (Some (mkTreap (new_node value p)), g)
      | Node _ s _ _ _ =>
          if index <=? 0 then PushFront t [value] g
          else if index >=? s - 1 then PushBack t [value] g
          else
            let '(l, r) := split (root t') (wrap (index - 1)) in
            let '(p, g) := rand_Int g in
            let l := merge l (new_node value p) in
            (Some (mkTreap (merge l r)), g)
      end
  end.

Definition Cut (t : handle) (index_left index_right : Z) : handle :=
  match t with
  | None => None
  | Some t' =>
      match root t' with
      | Nil => t
      | Node _ s _ _ _ =>
          if index_left >? index_right then t
          else if (index_right <? 0) || (index_left >=? s) then t
          else
            let '(l, k) := split (root t') (wrap (index_left - 1)) in
            let '(_, r) := split k index_right in
            Some (mkTreap (merge l r))
      end
  end.

Definition Delete (t : handle) (index : Z) : handle :=
  match t with
  | None => None
  | Some t' =>
      match root t' with
      | Nil => t
      | Node _ s _ _ _ =>
          if (index <? 0) || (index >=? s) then t
          else
            let '(l, k) := split (root t') (wrap (index - 1)) in
            let '(_, r) := split k index in
            Some (mkTreap (merge l r))
      end
  end.

Definition Size (t : handle) : Z :=
  match t with
  | None => 0
  | Some t =>
      match root t with
      | Nil => 0
      | Node _ s _ _ _ => s
      end
  end.

(** The loop [for n := t.root; n != nil; { ... }] of [Find]; leaving the
    loop because [n] became nil returns [0]. *)
Fixpoint Find_loop (n : node) (index : Z) : Z :=
  match n with
  | Nil => 0
  | Node v _ _ lson rson =>
      let position := index in
      let '(lsize, position, index) :=
        match lson with
        | Nil => (0, position, index)
        | Node _ ls _ _ _ => (ls, position - ls, index - ls)
        end in
      if position <? 0 then Find_loop lson (index + lsize)
      else if position >? 0 then Find_loop rson (index - 1)
      else v
  end.

Definition Find (t : handle) (index : Z) : Z :=
  match t with
  | None => 0
  | Some t =>
      match root t with
      | Nil => 0
      | Node _ s _ _ _ =>
          if (index <? 0) || (index >=? s) then 0
          else Find_loop (root t) index
      end
  end.

(** [Export]: the nil slice is the empty list. *)
Definition Export (t : handle) : option (list Z) :=
  match t with
  | None => Some []
  | Some t =>
      match root t with
      | Nil => Some []
      | Node _ s _ _ _ =>
          if s <? 0 then None
          else export (replicate (Z.to_nat s) 0) 0 (root t)
      end
  end.

(** ** Abstract view and invariants *)

(** The cached size of the tree behind a pointer ([0] behind nil). *)
Definition size_of (n : node) : Z :=
  match n with
  | Nil => 0
  | Node _ s _ _ _ => s
  end.

(** Left-to-right traversal: the sequence a tree stands for. *)
Fixpoint inorder (n : node) : list Z :=
  match n with
  | Nil => []
  | Node v _ _ lson rson => inorder lson ++ v :: inorder rson
  end.

(** Size invariant: at every node, [size == 1 + leftSize + rightSize]. *)
Fixpoint size_inv (n : node) : Prop :=
  match n with
  | Nil => True
  | Node _ s _ lson rson =>
      s = 1 + size_of lson + size_of rson ∧ size_inv lson ∧ size_inv rson
  end.

(** [prio_ge p c]: the child [c], when present, has priority at most [p]. *)
Definition prio_ge (p : Z) (c : node) : Prop :=
  match c with
  | Nil => True
  | Node _ _ q _ _ => p >= q
  end.

(** Heap invariant: at every node, [priority >= child.priority] for each
    present child. *)
Fixpoint heap_inv (n : node) : Prop :=
  match n with
  | Nil => True
  | Node _ _ p lson rson =>
      prio_ge p lson ∧ prio_ge p rson ∧ heap_inv lson ∧ heap_inv rson
  end.

(** The two invariants as seen from a handle. *)
Definition handle_inv (P : node → Prop) (t : handle) : Prop :=
  match t with
  | None => True
  | Some t => P (root t)
  end.

(** ** Nodes of a tree *)

(** [subnode m n]: [m] is [n] or sits somewhere below [n]. *)
Inductive subnode (m : node) : node → Prop :=
| sub_here : subnode m m
| sub_lson v s p l r : subnode m l → subnode m (Node v s p l r)
| sub_rson v s p l r : subnode m r → subnode m (Node v s p l r).

(** ** The sequence behind a handle *)

Definition seq_of (t : handle) : list Z :=
  match t with
  | None => []
  | Some t => inorder (root t)
  end.

(** ** States the public API can produce *)

(** A handle is either the nil [*Treap], or the result of [Create], or
    the result of a public operation on handles obtained before.  Every
    operation takes the handles it works on as distinct objects and, as the
    package requires, a handle given to [Merge] or [Split] is not used
    again.  The random source is arbitrary at every call. *)
Inductive reachable : handle → Prop :=
| reach_nil : reachable None
| reach_Create values g : reachable (Create values g).1
| reach_Merge t1 t2 :
    reachable t1 → reachable t2 → reachable (Merge t1 t2)
| reach_Split_l t index : reachable t → reachable (Split t index).1
| reach_Split_r t index : reachable t → reachable (Split t index).2
| reach_Insert t index value g :
    reachable t → reachable (Insert t index value g).1
| reach_PushFront t values g :
    reachable t → reachable (PushFront t values g).1
| reach_PushBack t values g :
    reachable t → reachable (PushBack t values g).1
| reach_Cut t index_left index_right :
    reachable t → reachable (Cut t index_left index_right)
| reach_Delete t index : reachable t → reachable (Delete t index).

(** ** Concrete treaps used below *)

(** [Create(10, 20, 30)] when the three draws come out decreasing: a
    chain of right sons. *)
Definition chain3 : handle := (Create [10; 20; 30] (draws [3; 2; 1])).1.

(** [Create(1, 2, 3, 4)] when the four draws come out decreasing. *)
Definition chain4 : handle := (Create [1; 2; 3; 4] (draws [4; 3; 2; 1])).1.

(** [Create(1, 2, 3, 4)] when the four draws come out increasing: a chain
    of left sons, on which [split] never goes right. *)
Definition lchain4 : handle := (Create [1; 2; 3; 4] (draws [1; 2; 3; 4])).1.

(** * The package over a store of addresses *)

(** The second embedding keeps the pointers: a node is a cell in a store,
    a [*node] is nil or an address, and every read and write of a field is
    a step of a state-and-failure monad.  A load from an address that holds
    no cell does not happen in Go (a non-nil pointer always points to a live
    object); it is a failure here, and so is running out of [fuel], the
    bound on the number of loop iterations or nested calls. *)
Module Store.

Definition addr : Type := positive.

(** [*node] and [*Treap]: [None] is nil. *)
Definition ptr : Type := option addr.

(** The struct [node]. *)
Record cell : Type := mkCell {
  c_value : Z;
  c_size : Z;
  c_priority : Z;
  c_lson : ptr;
  c_rson : ptr
}.

(** The node structs and the [Treap] structs (one field, [root]). *)
Record store : Type := mkStore {
  nodes : gmap addr cell;
  treaps : gmap addr ptr
}.

Definition M (A : Type) : Type := store → option (A * store).

Definition ret {A} (a : A) : M A := λ st, Some (a, st).

Definition bind {A B} (m : M A) (k : A → M B) : M B :=
  λ st, match m st with Some (a, st) => k a st | None => None end.

Definition fault {A} : M A := λ _, None.

#[global] Instance M_ret : MRet M := @ret.
#[global] Instance M_bind : MBind M := λ A B k m, bind m k.

Definition load_node (a : addr) : M cell :=
  λ st, match nodes st !! a with Some c => Some (c, st) | None => None end.

Definition store_node (a : addr) (c : cell) : M unit :=
  λ st, Some ((), mkStore (<[a := c]> (nodes st)) (treaps st)).

Definition load_root (a : addr) : M ptr :=
  λ st, match treaps st !! a with Some r => Some (r, st) | None => None end.

(** [n.size = s], [n.lson = l], [n.rson = r] *)
Definition set_size (a : addr) (s : Z) : M unit :=
  c ← load_node a;
  store_node a (mkCell (c_value c) s (c_priority c) (c_lson c) (c_rson c)).

Definition set_lson (a : addr) (l : ptr) : M unit :=
  c ← load_node a;
  store_node a (mkCell (c_value c) (c_size c) (c_priority c) l (c_rson c)).

Definition set_rson (a : addr) (r : ptr) : M unit :=
  c ← load_node a;
  store_node a (mkCell (c_value c) (c_size c) (c_priority c) (c_lson c) r).

Definition sync (n : ptr) : M unit :=
  match n with
  | None => ret ()
  | Some a =>
      set_size a 1;;
      c ← load_node a;
      match c_lson c with
      | Some la =>
          c ← load_node a;
          lc ← load_node la;
          set_size a (c_size c + c_size lc)
      | None => ret ()
      end;;
      c ← load_node a;
      match c_rson c with
      | Some ra =>
          c ← load_node a;
          rc ← load_node ra;
          set_size a (c_size c + c_size rc)
      | None => ret ()
      end
  end.

Fixpoint merge (fuel : nat) (n1 n2 : ptr) : M ptr :=
  match fuel with
  | O => fault
  | S fuel =>
      match n1, n2 with
      | None, _ => ret n2
      | Some _, None => ret n1
      | Some a1, Some a2 =>
          c1 ← load_node a1;
          c2 ← load_node a2;
          if c_priority c1 >? c_priority c2 then
            r ← merge fuel (c_rson c1) n2;
            set_rson a1 r;;
            sync n1;;
            ret n1
          else
            l ← merge fuel n1 (c_lson c2);
            set_lson a2 l;;
            sync n2;;
            ret n2
      end
  end.

Fixpoint split (fuel : nat) (n : ptr) (index : Z) : M (ptr * ptr) :=
  match fuel with
  | O => fault
  | S fuel =>
      match n with
      | None => ret (None, None)
      | Some a =>
          c ← load_node a;
          if index <? 0 then ret (None, n)
          else if index >=? c_size c then ret (n, None)
          else
            position ←
              match c_lson c with
              | Some la => lc ← load_node la; ret (index - c_size lc)
              | None => ret index
              end;
            if position <? 0 then
              '(l, r) ← split fuel (c_lson c) index;
              set_lson a r;;
              sync n;;
              ret (l, n)
            else if position >? 0 then
              '(l, r) ← split fuel (c_rson c) index;
              set_rson a l;;
              sync n;;
              ret (n, r)
            else
              let r := c_rson c in
              set_rson a None;;
              sync n;;
              ret (n, r)
      end
  end.

(** [export]: the slice [values] is a fresh object of the caller, kept
    apart from the store. *)
Fixpoint export (fuel : nat) (values : list Z) (position : Z) (n : ptr)
  : M (list Z) :=
  match fuel with
  | O => fault
  | S fuel =>
      match n with
      | None => ret values
      | Some a =>
          c ← load_node a;
          '(values, position) ←
            match c_lson c with
            | Some la =>
                values ← export fuel values position (c_lson c);
                lc ← load_node la;
                ret (values, position + c_size lc)
            | None => ret (values, position)
            end;
          match slice_set values position (c_value c) with
          | Some values => export fuel values (position + 1) (c_rson c)
          | None => fault
          end
      end
  end.

Definition Size (t : ptr) : M Z :=
  match t with
  | None => ret 0
  | Some ta =>
      r ← load_root ta;
      match r with
      | None => ret 0
      | Some ra => c ← load_node ra; ret (c_size c)
      end
  end.

(** The loop of [Find]: one unit of [fuel] per iteration. *)
Fixpoint Find_loop (fuel : nat) (n : ptr) (index : Z) : M Z :=
  match fuel with
  | O => fault
  | S fuel =>
      match n with
      | None => ret 0
      | Some a =>
          c ← load_node a;
          let position := index in
          let lson := c_lson c in
          '(lsize, position, index) ←
            match lson with
            | Some la =>
                lc ← load_node la;
                ret (c_size lc, position - c_size lc, index - c_size lc)
            | None => ret (0, position, index)
            end;
          if position <? 0 then Find_loop fuel lson (index + lsize)
          else if position >? 0 then Find_loop fuel (c_rson c) (index - 1)
          else ret (c_value c)
      end
  end.

Definition Find (fuel : nat) (t : ptr) (index : Z) : M Z :=
  match t with
  | None => ret 0
  | Some ta =>
      r ← load_root ta;
      match r with
      | None => ret 0
      | Some ra =>
          c ← load_node ra;
          if (index <? 0) || (index >=? c_size c) then ret 0
          else Find_loop fuel r index
      end
  end.

Definition Export (fuel : nat) (t : ptr) : M (list Z) :=
  match t with
  | None => ret []
  | Some ta =>
      r ← load_root ta;
      match r with
      | None => ret []
      | Some ra =>
          c ← load_node ra;
          if c_size c <? 0 then fault
          else export fuel (replicate (Z.to_nat (c_size c)) 0) 0 r
      end
  end.

(** [tree_at ns p n F]: in the node store [ns], the pointer [p] is the
    root of the tree [n], whose nodes sit at the addresses [F], each
    address holding exactly one node of the tree. *)
Inductive tree_at (ns : gmap addr cell) : ptr → node → gset addr → Prop :=
| tree_nil : tree_at ns None Nil ∅
| tree_node a c l r Fl Fr :
    ns !! a = Some c →
    tree_at ns (c_lson c) l Fl →
    tree_at ns (c_rson c) r Fr →
    a ∉ Fl → a ∉ Fr → Fl ## Fr →
    tree_at ns (Some a)
      (Node (c_value c) (c_size c) (c_priority c) l r)
      ({[a]} ∪ Fl ∪ Fr).

(** [handle_at st t h F]: the [*Treap] [t] stands for the handle [h]. *)
Inductive handle_at (st : store) : ptr → handle → gset addr → Prop :=
| handle_nil : handle_at st None None ∅
| handle_treap ta r n F :
    treaps st !! ta = Some r →
    tree_at (nodes st) r n F →
    handle_at st (Some ta) (Some (mkTreap n)) F.

(** The store leaves everything outside [F] as it was. *)
Definition same_outside (F : gset addr) (st st' : store) : Prop :=
  treaps st' = treaps st ∧
  ∀ a, a ∉ F → nodes st' !! a = nodes st !! a.

(** A store holding [Create(10, 20, 30)] with decreasing draws. *)
Definition chain3_store : store :=
  mkStore
    (<[2%positive := mkCell 10 3 3 None (Some 3%positive)]>
       (<[3%positive := mkCell 20 2 2 None (Some 4%positive)]>
          (<[4%positive := mkCell 30 1 1 None None]> ∅)))
    (<[1%positive := Some 2%positive]> ∅).

End Store.

(** Number of nodes on the longest path from the root. *)
Fixpoint height (n : node) : nat :=
  match n with
  | Nil => 0
  | Node _ _ _ lson rson => S (Nat.max (height lson) (height rson))
  end.

(** [upd st a c]: the store after the cell at [a] was overwritten. *)
Definition upd (st : Store.store) (a : Store.addr) (c : Store.cell) : Store.store :=
  Store.mkStore (<[a := c]> (Store.nodes st)) (Store.treaps st).

Definition handle_height (h : handle) : nat :=
  match h with
  | None => 0
  | Some t => height (root t)
  end.

(** [represents st t h]: in the store [st], the [*Treap] [t] stands for the
    handle [h] of the tree embedding. *)
Definition represents (st : Store.store) (t : Store.ptr) (h : handle) : Prop :=
  ∃ F, Store.handle_at st t h F.

(** The store [Store.chain3_store] with one more node, at address [5],
    that belongs to no treap yet. *)
Definition two_trees_store : Store.store :=
  Store.mkStore
    (<[5%positive := Store.mkCell 40 1 5 None None]>
       (Store.nodes Store.chain3_store))
    (Store.treaps Store.chain3_store).

(** The addresses of the chain in [Store.chain3_store]. *)
Definition chain3_addrs : gset Store.addr :=
  {[2%positive]} ∪ ∅ ∪ ({[3%positive]} ∪ ∅ ∪ ({[4%positive]} ∪ ∅ ∪ ∅)).

(** * Lemmas *)

(** ** Go integers *)

Lemma wrap_int z : is_int z → wrap z = z.
Proof.
  unfold is_int, wrap. intros Hz.
  rewrite Z.mod_small by lia. lia.
Qed.

(** ** Facts about [sync] and [merge] *)

Lemma sync_size v s p l r :
  sync (Node v s p l r) = Node v (1 + size_of l + size_of r) p l r.
Proof. destruct l, r; simpl; f_equal; lia. Qed.

Lemma merge_Nil_r n : merge n Nil = n.
Proof. by destruct n. Qed.

Lemma merge_Node v1 s1 p1 l1 r1 v2 s2 p2 l2 r2 :
  merge (Node v1 s1 p1 l1 r1) (Node v2 s2 p2 l2 r2) =
  if p1 >? p2
  then sync (Node v1 s1 p1 l1 (merge r1 (Node v2 s2 p2 l2 r2)))
  else sync (Node v2 s2 p2 (merge (Node v1 s1 p1 l1 r1) l2) r2).
Proof. reflexivity. Qed.

Lemma merge_Nil_l n : merge Nil n = n.
Proof. reflexivity. Qed.

#[global] Arguments merge : simpl never.

(** Induction along the calls of [merge]. *)
Lemma merge_ind (P : node → node → node → Prop) :
  (∀ n2, P Nil n2 n2) →
  (∀ n1, P n1 Nil n1) →
  (∀ v1 s1 p1 l1 r1 v2 s2 p2 l2 r2,
     let n1 := Node v1 s1 p1 l1 r1 in
     let n2 := Node v2 s2 p2 l2 r2 in
     p1 > p2 →
     P r1 n2 (merge r1 n2) →
     P n1 n2 (Node v1 (1 + size_of l1 + size_of (merge r1 n2)) p1 l1 (merge r1 n2))) →
  (∀ v1 s1 p1 l1 r1 v2 s2 p2 l2 r2,
     let n1 := Node v1 s1 p1 l1 r1 in
     let n2 := Node v2 s2 p2 l2 r2 in
     p1 <= p2 →
     P n1 l2 (merge n1 l2) →
     P n1 n2 (Node v2 (1 + size_of (merge n1 l2) + size_of r2) p2 (merge n1 l2) r2)) →
  ∀ n1 n2, P n1 n2 (merge n1 n2).
Proof.
  intros HNl HNr Hgt Hle.
  induction n1 as [|v1 s1 p1 l1 IHl1 r1 IHr1]; intros n2; [apply HNl|].
  induction n2 as [|v2 s2 p2 l2 IHl2 r2 IHr2]; [apply HNr|].
  rewrite merge_Node, !sync_size.
  destruct (Z.gtb_spec p1 p2).
  - apply Hgt; [lia | apply IHr1].
  - apply Hle; [lia | apply IHl2].
Qed.

Lemma merge_inorder n1 n2 : inorder (merge n1 n2) = inorder n1 ++ inorder n2.
Proof.
  apply (merge_ind (λ a b m, inorder m = inorder a ++ inorder b)).
  - done.
  - intros; by rewrite app_nil_r.
  - intros * _ IH; simpl in *. rewrite IH. by rewrite <- app_assoc.
  - intros * _ IH; simpl in *. rewrite IH. by rewrite <- app_assoc.
Qed.

Lemma merge_size_of n1 n2 :
  size_inv n1 → size_inv n2 →
  size_of (merge n1 n2) = size_of n1 + size_of n2.
Proof.
  apply (merge_ind (λ a b m,
    size_inv a → size_inv b → size_of m = size_of a + size_of b)).
  - done.
  - intros; simpl; lia.
  - intros * _ IH (Hs & Hl & Hr) H2; simpl in *. specialize (IH Hr H2). lia.
  - intros * _ IH H1 (Hs & Hl & Hr); simpl in *. specialize (IH H1 Hl). lia.
Qed.

Lemma merge_size_inv n1 n2 :
  size_inv n1 → size_inv n2 → size_inv (merge n1 n2).
Proof.
  apply (merge_ind (λ a b m, size_inv a → size_inv b → size_inv m)).
  - done.
  - done.
  - intros * _ IH (? & ? & ?) H2; simpl in *. auto.
  - intros * _ IH H1 (? & ? & ?); simpl in *. auto.
Qed.

Lemma merge_heap_bound q n1 n2 :
  heap_inv n1 → heap_inv n2 → prio_ge q n1 → prio_ge q n2 →
  heap_inv (merge n1 n2) ∧ prio_ge q (merge n1 n2).
Proof.
  revert q.
  apply (merge_ind (λ a b m, ∀ q,
    heap_inv a → heap_inv b → prio_ge q a → prio_ge q b →
    heap_inv m ∧ prio_ge q m)).
  - done.
  - done.
  - intros * Hp IH q (Hpl & Hpr & Hl & Hr) Hb Hq1 Hq2; simpl in *.
    destruct (IH p1) as [? ?]; simpl; auto with lia.
  - intros * Hp IH q Ha (Hpl & Hpr & Hl & Hr) Hq1 Hq2; simpl in *.
    destruct (IH p2) as [? ?]; simpl; auto with lia.
Qed.

Lemma prio_ge_top n : ∃ q, prio_ge q n.
Proof. destruct n as [|v s p l r]; [by exists 0 | exists p; simpl; lia]. Qed.

Lemma merge_heap_inv n1 n2 :
  heap_inv n1 → heap_inv n2 → heap_inv (merge n1 n2).
Proof.
  intros H1 H2.
  destruct (prio_ge_top n1) as [q1 Hq1], (prio_ge_top n2) as [q2 Hq2].
  apply (merge_heap_bound (Z.max q1 q2)); auto.
  - destruct n1; simpl in *; lia.
  - destruct n2; simpl in *; lia.
Qed.

(** ** Facts about [split] *)

(** One step of [split] with the two nil tests folded into [size_of]. *)
Lemma split_Node v s p lson rson index :
  split (Node v s p lson rson) index =
  if index <? 0 then (Nil, Node v s p lson rson)
  else if index >=? s then (Node v s p lson rson, Nil)
  else if index - size_of lson <? 0 then
    ((split lson index).1,
     Node v (1 + size_of (split lson index).2 + size_of rson) p
       (split lson index).2 rson)
  else if index - size_of lson >? 0 then
    (Node v (1 + size_of lson + size_of (split rson index).1) p
       lson (split rson index).1,
     (split rson index).2)
  else (Node v (1 + size_of lson + 0) p lson Nil, rson).
Proof.
  cbn [split].
  replace (match lson with Nil => index | Node _ ls _ _ _ => index - ls end)
    with (index - size_of lson) by (destruct lson; simpl; lia).
  destruct (split lson index), (split rson index).
  by rewrite !sync_size.
Qed.

Lemma split_inorder n index :
  inorder (split n index).1 ++ inorder (split n index).2 = inorder n.
Proof.
  induction n as [|v s p l IHl r IHr]; [done|].
  rewrite split_Node.
  repeat case_match; simpl; rewrite ?app_nil_r; try done.
  - by rewrite app_assoc, IHl.
  - by rewrite <- app_assoc, <- app_comm_cons, IHr.
  - by rewrite <- app_assoc.
Qed.

Lemma split_size_inv n index :
  size_inv n → size_inv (split n index).1 ∧ size_inv (split n index).2.
Proof.
  induction n as [|v s p l IHl r IHr]; [done|].
  intros (Hs & Hl & Hr). rewrite split_Node.
  destruct (IHl Hl), (IHr Hr).
  repeat case_match; simpl; repeat split; auto with lia.
Qed.

Lemma prio_ge_mono q p c : q >= p → prio_ge p c → prio_ge q c.
Proof. destruct c; simpl; [done | lia]. Qed.

Lemma split_heap_bound q n index :
  heap_inv n → prio_ge q n →
  (heap_inv (split n index).1 ∧ prio_ge q (split n index).1) ∧
  (heap_inv (split n index).2 ∧ prio_ge q (split n index).2).
Proof.
  revert q.
  induction n as [|v s p l IHl r IHr]; [done|].
  intros q (Hpl & Hpr & Hl & Hr) Hq. rewrite split_Node.
  destruct (IHl p Hl Hpl) as [[? ?] [? ?]].
  destruct (IHr p Hr Hpr) as [[? ?] [? ?]].
  simpl in Hq.
  repeat case_match; simpl; repeat split;
    eauto using prio_ge_mono with lia.
Qed.

Lemma split_heap_inv n index :
  heap_inv n → heap_inv (split n index).1 ∧ heap_inv (split n index).2.
Proof.
  intros H. destruct (prio_ge_top n) as [q Hq].
  destruct (split_heap_bound q n index H Hq) as [[? _] [? _]]. done.
Qed.

(** ** Facts about [export] and [Find] *)

Lemma size_inv_length n :
  size_inv n → Z.of_nat (length (inorder n)) = size_of n.
Proof.
  induction n as [|v s p l IHl r IHr]; [done|].
  intros (Hs & Hl & Hr). simpl.
  rewrite length_app. simpl. rewrite Nat2Z.inj_add, Nat2Z.inj_succ.
  rewrite IHl, IHr by done. lia.
Qed.

Lemma size_inv_nonneg n : size_inv n → 0 <= size_of n.
Proof. intros H. rewrite <- (size_inv_length n H). lia. Qed.

(** One step of [export] with the nil test folded into [size_of]. *)
Lemma export_Node values position v s p lson rson :
  export values position (Node v s p lson rson) =
  match export values position lson with
  | Some values =>
      match slice_set values (position + size_of lson) v with
      | Some values => export values (position + size_of lson + 1) rson
      | None => None
      end
  | None => None
  end.
Proof.
  transitivity
    (match
       match lson with
       | Nil => Some (values, position)
       | Node _ ls _ _ _ =>
           match export values position lson with
           | Some values => Some (values, position + ls)
           | None => None
           end
       end
     with
     | Some (values, position) =>
         match slice_set values position v with
         | Some values => export values (position + 1) rson
         | None => None
         end
     | None => None
     end); [reflexivity|].
  destruct lson as [|lv ls lp ll lr].
  - cbn [export size_of]. by rewrite Z.add_0_r.
  - cbv beta iota. cbn [size_of].
    by destruct (export values position (Node lv ls lp ll lr)).
Qed.

Lemma slice_set_middle (pre post : list Z) x v position :
  position = Z.of_nat (length pre) →
  slice_set (pre ++ x :: post) position v = Some (pre ++ v :: post).
Proof.
  intros ->. unfold slice_set.
  rewrite length_app. simpl.
  rewrite Nat2Z.id.
  assert (Hin : (0 <=? Z.of_nat (length pre)) &&
           (Z.of_nat (length pre) <? Z.of_nat (length pre + S (length post)))
           = true)
    by (apply andb_true_iff; split; [apply Z.leb_le | apply Z.ltb_lt]; lia).
  rewrite Hin. f_equal. rewrite insert_app_r_alt by lia.
  by rewrite Nat.sub_diag.
Qed.

(** On a tree with consistent sizes, [export] overwrites exactly the
    [size] cells from [position] on with the in-order sequence. *)
Lemma export_fill n :
  size_inv n →
  ∀ (pre mid post : list Z) position,
    position = Z.of_nat (length pre) →
    Z.of_nat (length mid) = size_of n →
    export (pre ++ mid ++ post) position n = Some (pre ++ inorder n ++ post).
Proof.
  induction n as [|v s p l IHl r IHr]; intros Hinv pre mid post position Hp Hm.
  - simpl in *. by destruct mid.
  - destruct Hinv as (Hs & Hl & Hr).
    pose proof (size_inv_nonneg l Hl) as Hl0.
    pose proof (size_inv_nonneg r Hr) as Hr0.
    simpl in Hm.
    rewrite export_Node.
    rewrite <- (take_drop (Z.to_nat (size_of l)) mid).
    assert (Hlen1 : Z.of_nat (length (take (Z.to_nat (size_of l)) mid)) = size_of l)
      by (rewrite length_take; lia).
    destruct (drop (Z.to_nat (size_of l)) mid) as [|x m2] eqn:Hd.
    { apply (f_equal length) in Hd. rewrite length_drop in Hd. simpl in Hd. lia. }
    assert (Hlen2 : Z.of_nat (length m2) = size_of r).
    { apply (f_equal length) in Hd. rewrite length_drop in Hd. simpl in Hd. lia. }
    rewrite <- app_assoc.
    rewrite (IHl Hl pre _ _ position Hp Hlen1).
    simpl.
    rewrite (app_assoc pre (inorder l)).
    rewrite slice_set_middle
      by (rewrite length_app, Nat2Z.inj_add, (size_inv_length l Hl); lia).
    replace ((pre ++ inorder l) ++ v :: m2 ++ post)
      with ((pre ++ inorder l ++ [v]) ++ m2 ++ post)
      by (by rewrite <- !app_assoc).
    rewrite (IHr Hr (pre ++ inorder l ++ [v]) m2 post); [| | done].
    + by rewrite <- !app_assoc.
    + rewrite !length_app, !Nat2Z.inj_add, (size_inv_length l Hl). simpl. lia.
Qed.

Lemma Export_inorder t :
  size_inv (root t) → Export (Some t) = Some (inorder (root t)).
Proof.
  intros Hinv. unfold Export.
  destruct (root t) as [|v s p l r] eqn:Hroot; [done|].
  pose proof (size_inv_nonneg _ Hinv) as Hs. simpl in Hs.
  destruct (Z.ltb_spec s 0); [lia|].
  pose proof (export_fill _ Hinv [] (replicate (Z.to_nat s) 0) [] 0) as H1.
  rewrite !app_nil_r in H1. simpl app in H1. apply H1; [done|].
  rewrite length_replicate. simpl. lia.
Qed.

(** One step of the loop of [Find] with the nil test folded into
    [size_of]. *)
Lemma Find_loop_Node v s p lson rson index :
  Find_loop (Node v s p lson rson) index =
  if index - size_of lson <? 0 then Find_loop lson index
  else if index - size_of lson >? 0 then Find_loop rson (index - size_of lson - 1)
  else v.
Proof.
  destruct lson as [|lv ls lp ll lr]; cbn [Find_loop size_of].
  - by rewrite Z.sub_0_r.
  - by replace (index - ls + ls) with index by lia.
Qed.

Lemma Find_loop_inorder n :
  size_inv n →
  ∀ index, 0 <= index < size_of n →
    inorder n !! Z.to_nat index = Some (Find_loop n index).
Proof.
  induction n as [|v s p l IHl r IHr]; intros Hinv index Hi.
  - simpl in Hi. lia.
  - destruct Hinv as (Hs & Hl & Hr). simpl in Hi.
    pose proof (size_inv_length l Hl) as Hll.
    rewrite Find_loop_Node. simpl.
    destruct (Z.ltb_spec (index - size_of l) 0).
    + rewrite lookup_app_l by lia. apply IHl; [done | lia].
    + rewrite lookup_app_r by lia.
      destruct (Z.gtb_spec (index - size_of l) 0).
      * replace (Z.to_nat index - length (inorder l))%nat
          with (S (Z.to_nat (index - size_of l - 1))) by lia.
        simpl. apply IHr; [done | lia].
      * by replace (Z.to_nat index - length (inorder l))%nat with 0%nat by lia.
Qed.

(** ** The two push loops *)

Lemma PushBack_loop_inorder values :
  ∀ vroot g,
    inorder (PushBack_loop values vroot g).1 = inorder vroot ++ values.
Proof.
  induction values as [|value values IH]; intros vroot g; simpl.
  - by rewrite app_nil_r.
  - rewrite IH, merge_inorder. simpl. by rewrite <- app_assoc.
Qed.

Lemma PushFront_loop_inorder values :
  ∀ vroot g,
    inorder (PushFront_loop values vroot g).1 = rev values ++ inorder vroot.
Proof.
  induction values as [|value values IH]; intros vroot g; simpl.
  - done.
  - rewrite IH, merge_inorder. simpl. by rewrite <- app_assoc.
Qed.

(** ** Invariants of the reachable states *)

(** Any property of trees that holds of the empty tree and of a fresh
    node and that [merge] and [split] preserve holds behind every handle
    the API can produce. *)
Section Preservation.
Variable P : node → Prop.
Hypothesis P_Nil : P Nil.
Hypothesis P_new : ∀ value p, P (new_node value p).
Hypothesis P_merge : ∀ n1 n2, P n1 → P n2 → P (merge n1 n2).
Hypothesis P_split :
  ∀ n index, P n → P (split n index).1 ∧ P (split n index).2.

Lemma PushBack_loop_preserves values :
  ∀ vroot g, P vroot → P (PushBack_loop values vroot g).1.
Proof using P_new P_merge.
  induction values as [|value values IH]; intros vroot g Hv; simpl; auto.
Qed.

Lemma PushFront_loop_preserves values :
  ∀ vroot g, P vroot → P (PushFront_loop values vroot g).1.
Proof using P_new P_merge.
  induction values as [|value values IH]; intros vroot g Hv; simpl; auto.
Qed.

Lemma PushBack_preserves t values g :
  handle_inv P t → handle_inv P (PushBack t values g).1.
Proof using P_Nil P_new P_merge.
  destruct t as [t|]; [|done]. simpl. intros Ht.
  pose proof (PushBack_loop_preserves values Nil g P_Nil) as Hl.
  destruct (PushBack_loop values Nil g). simpl in *. auto.
Qed.

Lemma PushFront_preserves t values g :
  handle_inv P t → handle_inv P (PushFront t values g).1.
Proof using P_Nil P_new P_merge.
  destruct t as [t|]; [|done]. simpl. intros Ht.
  pose proof (PushFront_loop_preserves values Nil g P_Nil) as Hl.
  destruct (PushFront_loop values Nil g). simpl in *. auto.
Qed.

Lemma Merge_preserves t1 t2 :
  handle_inv P t1 → handle_inv P t2 → handle_inv P (Merge t1 t2).
Proof using P_merge. destruct t1, t2; simpl; auto. Qed.

Lemma Split_preserves t index :
  handle_inv P t →
  handle_inv P (Split t index).1 ∧ handle_inv P (Split t index).2.
Proof using P_split.
  destruct t as [t|]; [|done]. simpl. intros Ht.
  destruct (P_split (root t) index Ht).
  by destruct (split (root t) index).
Qed.

Lemma Insert_preserves t index value g :
  handle_inv P t → handle_inv P (Insert t index value g).1.
Proof using P_Nil P_new P_merge P_split.
  destruct t as [t|]; [|done]. intros Ht. unfold Insert.
  destruct (root t) as [|v s p l r] eqn:Hroot; [simpl; auto|].
  repeat case_match.
  - by apply PushFront_preserves.
  - by apply PushBack_preserves.
  - simpl in Ht. rewrite Hroot in Ht.
    pose proof (P_split _ (wrap (index - 1)) Ht) as [Ha Hb].
    match goal with H : split _ _ = _ |- _ =>
      rewrite H in Ha, Hb; simpl in Ha, Hb
    end.
    simpl. auto.
Qed.

Lemma Cut_preserves t index_left index_right :
  handle_inv P t → handle_inv P (Cut t index_left index_right).
Proof using P_merge P_split.
  destruct t as [t|]; [|done]. intros Ht. unfold Cut.
  destruct (root t) as [|v s p l r] eqn:Hroot; [done|].
  repeat case_match; try done. subst. simpl in Ht |- *.
  rewrite Hroot in Ht.
  match goal with H : split _ (wrap _) = _ |- _ =>
    pose proof (P_split _ (wrap (index_left - 1)) Ht) as [Ha Hb];
    rewrite H in Ha, Hb; simpl in Ha, Hb
  end.
  match goal with H : split _ index_right = _ |- _ =>
    pose proof (P_split _ index_right Hb) as [Hc Hd];
    rewrite H in Hc, Hd; simpl in Hc, Hd
  end.
  auto.
Qed.

Lemma Delete_preserves t index :
  handle_inv P t → handle_inv P (Delete t index).
Proof using P_merge P_split.
  destruct t as [t|]; [|done]. intros Ht. unfold Delete.
  destruct (root t) as [|v s p l r] eqn:Hroot; [done|].
  repeat case_match; try done. subst. simpl in Ht |- *.
  rewrite Hroot in Ht.
  match goal with H : split _ (wrap _) = _ |- _ =>
    pose proof (P_split _ (wrap (index - 1)) Ht) as [Ha Hb];
    rewrite H in Ha, Hb; simpl in Ha, Hb
  end.
  match goal with H : split _ index = _ |- _ =>
    pose proof (P_split _ index Hb) as [Hc Hd];
    rewrite H in Hc, Hd; simpl in Hc, Hd
  end.
  auto.
Qed.

Lemma reachable_preserves t : reachable t → handle_inv P t.
Proof using P_Nil P_new P_merge P_split.
  induction 1.
  - done.
  - by apply PushBack_preserves.
  - by apply Merge_preserves.
  - by apply Split_preserves.
  - by apply Split_preserves.
  - by apply Insert_preserves.
  - by apply PushFront_preserves.
  - by apply PushBack_preserves.
  - by apply Cut_preserves.
  - by apply Delete_preserves.
Qed.
End Preservation.

Lemma reachable_size_inv t : reachable t → handle_inv size_inv t.
Proof.
  apply reachable_preserves.
  - done.
  - intros; simpl; auto with lia.
  - apply merge_size_inv.
  - intros; by apply split_size_inv.
Qed.

Lemma reachable_heap_inv t : reachable t → handle_inv heap_inv t.
Proof.
  apply reachable_preserves.
  - done.
  - done.
  - apply merge_heap_inv.
  - intros; by apply split_heap_inv.
Qed.

(** ** Nodes of a tree *)

Lemma size_inv_subnode n v s p l r :
  size_inv n → subnode (Node v s p l r) n → s = 1 + size_of l + size_of r.
Proof.
  intros Hinv Hsub. induction Hsub as [|? ? ? ? ? ? IH|? ? ? ? ? ? IH].
  - by destruct Hinv.
  - apply IH. by destruct Hinv as (_ & ? & _).
  - apply IH. by destruct Hinv as (_ & _ & ?).
Qed.

Lemma heap_inv_subnode n v s p l r :
  heap_inv n → subnode (Node v s p l r) n → prio_ge p l ∧ prio_ge p r.
Proof.
  intros Hinv Hsub. induction Hsub as [|? ? ? ? ? ? IH|? ? ? ? ? ? IH].
  - by destruct Hinv as (? & ? & _).
  - apply IH. by destruct Hinv as (_ & _ & ? & _).
  - apply IH. by destruct Hinv as (_ & _ & _ & ?).
Qed.

(** ** The sequence behind a handle *)

Lemma Export_seq_of t : handle_inv size_inv t → Export t = Some (seq_of t).
Proof. destruct t as [t|]; [apply Export_inorder | done]. Qed.

Lemma Size_length t :
  handle_inv size_inv t → Size t = Z.of_nat (length (seq_of t)).
Proof.
  destruct t as [t|]; [|done]. simpl. intros Hinv.
  rewrite (size_inv_length _ Hinv). by destruct (root t).
Qed.

Lemma Merge_seq_of t1 t2 :
  seq_of (Merge t1 t2) = seq_of t1 ++ seq_of t2.
Proof.
  destruct t1 as [a|], t2 as [b|]; simpl; rewrite ?app_nil_r; try done.
  apply merge_inorder.
Qed.

Lemma Split_seq_of t index :
  seq_of (Split t index).1 ++ seq_of (Split t index).2 = seq_of t.
Proof.
  destruct t as [t|]; [|done]. simpl.
  pose proof (split_inorder (root t) index) as H.
  by destruct (split (root t) index).
Qed.

Lemma PushBack_seq_of t values g :
  seq_of (PushBack (Some t) values g).1 = inorder (root t) ++ values.
Proof.
  simpl. pose proof (PushBack_loop_inorder values Nil g) as H.
  destruct (PushBack_loop values Nil g). simpl in *.
  by rewrite merge_inorder, H.
Qed.

Lemma PushFront_seq_of t values g :
  seq_of (PushFront (Some t) values g).1 = rev values ++ inorder (root t).
Proof.
  simpl. pose proof (PushFront_loop_inorder values Nil g) as H.
  destruct (PushFront_loop values Nil g). simpl in *.
  by rewrite merge_inorder, H, app_nil_r.
Qed.

(** ** The store embedding against the tree embedding *)

Lemma bind_Some {A B} (m : Store.M A) (k : A → Store.M B) st a st' :
  m st = Some (a, st') → (m ≫= k) st = k a st'.
Proof. intros H. unfold mbind, Store.M_bind, Store.bind. by rewrite H. Qed.

Lemma load_node_Some st a c :
  Store.nodes st !! a = Some c → Store.load_node a st = Some (c, st).
Proof. intros H. unfold Store.load_node. by rewrite H. Qed.

Lemma load_root_Some st a r :
  Store.treaps st !! a = Some r → Store.load_root a st = Some (r, st).
Proof. intros H. unfold Store.load_root. by rewrite H. Qed.

Lemma tree_at_None ns n F : Store.tree_at ns None n F → n = Nil ∧ F = ∅.
Proof. by inversion 1. Qed.

Lemma tree_at_size ns a n F :
  Store.tree_at ns (Some a) n F →
  ∃ c, ns !! a = Some c ∧ Store.c_size c = size_of n ∧ a ∈ F.
Proof. inversion 1; subst. exists c. repeat split; [done | set_solver]. Qed.

Lemma Find_loop_store ns p n F :
  Store.tree_at ns p n F →
  ∀ st fuel index,
    Store.nodes st = ns → (height n < fuel)%nat →
    Store.Find_loop fuel p index st = Some (Find_loop n index, st).
Proof.
  induction 1 as [|a c l r Fl Fr Ha Hl IHl Hr IHr Hal Har Hd];
    intros st fuel index Hst Hfuel.
  - destruct fuel; [lia|]. done.
  - destruct fuel as [|fuel]; [lia|]. simpl in Hfuel.
    rewrite Find_loop_Node. cbn [Store.Find_loop].
    rewrite (bind_Some _ _ st c st) by (apply load_node_Some; congruence).
    destruct (Store.c_lson c) as [la|] eqn:Hlson.
    + destruct (tree_at_size _ _ _ _ Hl) as (lc & Hlc & Hsz & _).
      rewrite (bind_Some _ _ st (Store.c_size lc, index - Store.c_size lc,
                                  index - Store.c_size lc) st)
        by (rewrite (bind_Some _ _ st lc st);
            [done | apply load_node_Some; congruence]).
      rewrite Hsz.
      replace (index - size_of l + size_of l) with index by lia.
      destruct (Z.ltb_spec (index - size_of l) 0); [apply IHl; [done|lia]|].
      destruct (Z.gtb_spec (index - size_of l) 0); [apply IHr; [done|lia]|].
      done.
    + apply tree_at_None in Hl as [-> _]. cbn [size_of].
      rewrite (bind_Some _ _ st (0, index, index) st) by done.
      rewrite Z.sub_0_r, Z.add_0_r.
      destruct (Z.ltb_spec index 0); [apply IHl; [done|lia]|].
      destruct (Z.gtb_spec index 0); [apply IHr; [done|lia]|].
      done.
Qed.

Lemma upd_lookup st a c : Store.nodes (upd st a c) !! a = Some c.
Proof. apply lookup_insert_eq. Qed.

Lemma upd_lookup_ne st a b c :
  a ≠ b → Store.nodes (upd st a c) !! b = Store.nodes st !! b.
Proof. intros. by apply lookup_insert_ne. Qed.

Lemma upd_upd st a c c' : upd (upd st a c) a c' = upd st a c'.
Proof. unfold upd. simpl. by rewrite insert_insert_eq. Qed.

Lemma set_size_Some st a c s :
  Store.nodes st !! a = Some c →
  Store.set_size a s st =
  Some ((), upd st a (Store.mkCell (Store.c_value c) s (Store.c_priority c)
                        (Store.c_lson c) (Store.c_rson c))).
Proof.
  intros H. unfold Store.set_size.
  by rewrite (bind_Some _ _ st c st) by by apply load_node_Some.
Qed.

Lemma set_lson_Some st a c l :
  Store.nodes st !! a = Some c →
  Store.set_lson a l st =
  Some ((), upd st a (Store.mkCell (Store.c_value c) (Store.c_size c)
                        (Store.c_priority c) l (Store.c_rson c))).
Proof.
  intros H. unfold Store.set_lson.
  by rewrite (bind_Some _ _ st c st) by by apply load_node_Some.
Qed.

Lemma set_rson_Some st a c r :
  Store.nodes st !! a = Some c →
  Store.set_rson a r st =
  Some ((), upd st a (Store.mkCell (Store.c_value c) (Store.c_size c)
                        (Store.c_priority c) (Store.c_lson c) r)).
Proof.
  intros H. unfold Store.set_rson.
  by rewrite (bind_Some _ _ st c st) by by apply load_node_Some.
Qed.

Lemma tree_at_frame ns ns' p n F :
  Store.tree_at ns p n F →
  (∀ a, a ∈ F → ns' !! a = ns !! a) →
  Store.tree_at ns' p n F.
Proof.
  induction 1 as [|a c l r Fl Fr Ha Hl IHl Hr IHr Hal Har Hd]; intros Hsame.
  - constructor.
  - constructor; try done.
    + rewrite Hsame; [done | set_solver].
    + apply IHl. intros b Hb. apply Hsame. set_solver.
    + apply IHr. intros b Hb. apply Hsame. set_solver.
Qed.

Lemma tree_at_Node ns p v s pr l r F :
  Store.tree_at ns p (Node v s pr l r) F →
  ∃ a c Fl Fr,
    p = Some a ∧ ns !! a = Some c ∧
    (Store.c_value c = v ∧ Store.c_size c = s ∧ Store.c_priority c = pr) ∧
    Store.tree_at ns (Store.c_lson c) l Fl ∧
    Store.tree_at ns (Store.c_rson c) r Fr ∧
    (a ∉ Fl) ∧ (a ∉ Fr) ∧ (Fl ## Fr) ∧ F = {[a]} ∪ Fl ∪ Fr.
Proof.
  inversion 1 as [|a c l' r' Fl Fr]; subst.
  by exists a, c, Fl, Fr.
Qed.

(** [sync] on a node whose two sons are roots of trees apart from it. *)
Lemma sync_store st a c l r Fl Fr :
  Store.nodes st !! a = Some c →
  Store.tree_at (Store.nodes st) (Store.c_lson c) l Fl →
  Store.tree_at (Store.nodes st) (Store.c_rson c) r Fr →
  a ∉ Fl → a ∉ Fr →
  Store.sync (Some a) st =
  Some ((), upd st a (Store.mkCell (Store.c_value c)
                        (1 + size_of l + size_of r) (Store.c_priority c)
                        (Store.c_lson c) (Store.c_rson c))).
Proof.
  intros Ha Hl Hr Hal Har. unfold Store.sync.
  rewrite (bind_Some _ _ _ _ _ (set_size_Some st a c 1 Ha)).
  set (c1 := Store.mkCell _ 1 _ _ _). set (st1 := upd st a c1).
  rewrite (bind_Some _ _ st1 c1 st1) by apply load_node_Some, upd_lookup.
  assert (H1 :
    (match Store.c_lson c1 with
     | Some la =>
         c0 ← Store.load_node a;
         lc ← Store.load_node la;
         Store.set_size a (Store.c_size c0 + Store.c_size lc)
     | None => Store.ret ()
     end) st1 =
    Some ((), upd st a (Store.mkCell (Store.c_value c) (1 + size_of l)
                          (Store.c_priority c) (Store.c_lson c)
                          (Store.c_rson c)))).
  { subst c1; simpl. destruct (Store.c_lson c) as [la|] eqn:Hlson.
    - destruct (tree_at_size _ _ _ _ Hl) as (lc & Hlc & Hsz & Hin).
      rewrite (bind_Some _ _ st1 _ st1 (load_node_Some _ _ _ (upd_lookup _ _ _))).
      rewrite (bind_Some _ _ st1 lc st1).
      + subst st1. rewrite (set_size_Some _ _ _ _ (upd_lookup _ _ _)).
        rewrite upd_upd. simpl. by rewrite Hsz.
      + apply load_node_Some. subst st1. rewrite upd_lookup_ne; [done|].
        intros ->. done.
    - apply tree_at_None in Hl as [-> _]. simpl.
      by subst st1. }
  rewrite (bind_Some _ _ _ _ _ H1). clear H1.
  set (c2 := Store.mkCell _ (1 + size_of l) _ _ _). set (st2 := upd st a c2).
  rewrite (bind_Some _ _ st2 c2 st2) by apply load_node_Some, upd_lookup.
  subst c2; simpl. destruct (Store.c_rson c) as [ra|] eqn:Hrson.
  - destruct (tree_at_size _ _ _ _ Hr) as (rc & Hrc & Hsz & Hin).
    rewrite (bind_Some _ _ st2 _ st2 (load_node_Some _ _ _ (upd_lookup _ _ _))).
    rewrite (bind_Some _ _ st2 rc st2).
    + subst st2. rewrite (set_size_Some _ _ _ _ (upd_lookup _ _ _)).
      rewrite upd_upd. simpl. by rewrite Hsz.
    + apply load_node_Some. subst st2. rewrite upd_lookup_ne; [done|].
      intros ->. done.
  - apply tree_at_None in Hr as [-> _]. simpl.
    subst st2. unfold Store.ret. by rewrite Z.add_0_r.
Qed.

Lemma tree_at_upd st a c p n F :
  Store.tree_at (Store.nodes st) p n F → a ∉ F →
  Store.tree_at (Store.nodes (upd st a c)) p n F.
Proof.
  intros H Ha. apply (tree_at_frame _ _ _ _ _ H).
  intros b Hb. apply upd_lookup_ne. intros ->. done.
Qed.

(** Writing the two sons of a cell and calling [sync] on it. *)
Lemma relink_store st a c v q pl pr l r Fl Fr :
  Store.c_value c = v → Store.c_priority c = q →
  Store.tree_at (Store.nodes st) pl l Fl →
  Store.tree_at (Store.nodes st) pr r Fr →
  a ∉ Fl → a ∉ Fr → Fl ## Fr →
  Store.sync (Some a)
    (upd st a (Store.mkCell (Store.c_value c) (Store.c_size c)
                 (Store.c_priority c) pl pr)) =
  Some ((), upd st a (Store.mkCell (Store.c_value c)
                        (1 + size_of l + size_of r) (Store.c_priority c)
                        pl pr)) ∧
  Store.tree_at
    (Store.nodes
       (upd st a (Store.mkCell (Store.c_value c) (1 + size_of l + size_of r)
                    (Store.c_priority c) pl pr)))
    (Some a)
    (Node v (1 + size_of l + size_of r) q l r)
    ({[a]} ∪ Fl ∪ Fr).
Proof.
  intros <- <- Hl Hr Hal Har Hd. split.
  - rewrite (sync_store _ a _ l r Fl Fr (upd_lookup _ _ _)); simpl;
      [by rewrite upd_upd | by apply tree_at_upd | by apply tree_at_upd
      | done | done].
  - apply (Store.tree_node _ a
             (Store.mkCell (Store.c_value c) (1 + size_of l + size_of r)
                (Store.c_priority c) pl pr) l r Fl Fr); simpl; try done.
    + apply upd_lookup.
    + by apply tree_at_upd.
    + by apply tree_at_upd.
Qed.

Lemma same_outside_refl F st : Store.same_outside F st st.
Proof. by split. Qed.

Lemma same_outside_upd F F' st st' a c :
  Store.same_outside F st st' → a ∈ F' → F ⊆ F' →
  Store.same_outside F' st (upd st' a c).
Proof.
  intros [Ht Hn] Ha Hsub. split; [done|].
  intros b Hb. rewrite upd_lookup_ne by (intros ->; done).
  apply Hn. set_solver.
Qed.

(** [merge] over the store builds, in place, the tree that the pure
    [merge] builds, and touches nothing but the nodes of its arguments. *)
Lemma merge_store n1 n2 :
  ∀ st p1 p2 F1 F2 fuel,
    Store.tree_at (Store.nodes st) p1 n1 F1 →
    Store.tree_at (Store.nodes st) p2 n2 F2 →
    F1 ## F2 →
    (height n1 + height n2 < fuel)%nat →
    ∃ p st',
      Store.merge fuel p1 p2 st = Some (p, st') ∧
      Store.tree_at (Store.nodes st') p (merge n1 n2) (F1 ∪ F2) ∧
      Store.same_outside (F1 ∪ F2) st st'.
Proof.
  apply (merge_ind (λ a b m, ∀ st p1 p2 F1 F2 fuel,
    Store.tree_at (Store.nodes st) p1 a F1 →
    Store.tree_at (Store.nodes st) p2 b F2 →
    F1 ## F2 →
    (height a + height b < fuel)%nat →
    ∃ p st',
      Store.merge fuel p1 p2 st = Some (p, st') ∧
      Store.tree_at (Store.nodes st') p m (F1 ∪ F2) ∧
      Store.same_outside (F1 ∪ F2) st st')).
  - intros b st p1 p2 F1 F2 fuel H1 H2 _ Hfuel.
    inversion H1; subst. destruct fuel; [lia|].
    exists p2, st. rewrite (left_id_L ∅ (∪)).
    split; [done|]. split; [done | apply same_outside_refl].
  - intros a st p1 p2 F1 F2 fuel H1 H2 _ Hfuel.
    inversion H2; subst. destruct fuel; [lia|].
    exists p1, st. rewrite (right_id_L ∅ (∪)).
    split; [by destruct p1|]. split; [done | apply same_outside_refl].
  - intros v1 s1 q1 l1 r1 v2 s2 q2 l2 r2 n1' n2' Hq IH
      st p1 p2 F1 F2 fuel H1 H2 Hdisj Hfuel.
    subst n1' n2'.
    destruct (tree_at_Node _ _ _ _ _ _ _ _ H1)
      as (a1 & c1 & Fl1 & Fr1 & -> & Ha1 & (Hv1 & Hs1 & Hq1) & Hl1 & Hr1
          & Hal1 & Har1 & Hd1 & ->).
    destruct (tree_at_Node _ _ _ _ _ _ _ _ H2)
      as (a2 & c2 & Fl2 & Fr2 & -> & Ha2 & (Hv2 & Hs2 & Hq2) & _ & _
          & _ & _ & _ & HF2).
    destruct fuel as [|fuel]; [lia|].
    destruct (IH st (Store.c_rson c1) (Some a2) Fr1 F2 fuel)
      as (r & st1 & Hrun & Hr & Hout); [done | done | set_solver | |].
    { simpl in *. lia. }
    destruct Hout as [Hts Hns].
    assert (Ha1' : Store.nodes st1 !! a1 = Some c1).
    { rewrite Hns; [done | set_solver]. }
    destruct (relink_store st1 a1 c1 v1 q1 (Store.c_lson c1) r l1
                (merge r1 (Node v2 s2 q2 l2 r2)) Fl1 (Fr1 ∪ F2))
      as [Hsync Htree]; [done | done | ..].
    { apply (tree_at_frame _ _ _ _ _ Hl1). intros b Hb. apply Hns. set_solver. }
    { done. }
    { done. } { set_solver. } { set_solver. }
    exists (Some a1),
      (upd st1 a1
         (Store.mkCell (Store.c_value c1)
            (1 + size_of l1 + size_of (merge r1 (Node v2 s2 q2 l2 r2))) (Store.c_priority c1)
            (Store.c_lson c1) r)).
    split; [|split].
    + cbn [Store.merge].
      rewrite (bind_Some _ _ st c1 st) by by apply load_node_Some.
      rewrite (bind_Some _ _ st c2 st) by by apply load_node_Some.
      destruct (Z.gtb_spec (Store.c_priority c1) (Store.c_priority c2));
        [|lia].
      rewrite (bind_Some _ _ _ _ _ Hrun).
      rewrite (bind_Some _ _ _ _ _ (set_rson_Some _ _ _ r Ha1')).
      by rewrite (bind_Some _ _ _ _ _ Hsync).
    + replace ({[a1]} ∪ Fl1 ∪ Fr1 ∪ F2) with ({[a1]} ∪ Fl1 ∪ (Fr1 ∪ F2))
        by set_solver.
      exact Htree.
    + apply (same_outside_upd (Fr1 ∪ F2)); [done | set_solver | set_solver].
  - intros v1 s1 q1 l1 r1 v2 s2 q2 l2 r2 n1' n2' Hq IH
      st p1 p2 F1 F2 fuel H1 H2 Hdisj Hfuel.
    subst n1' n2'.
    destruct (tree_at_Node _ _ _ _ _ _ _ _ H2)
      as (a2 & c2 & Fl2 & Fr2 & -> & Ha2 & (Hv2 & Hs2 & Hq2) & Hl2 & Hr2
          & Hal2 & Har2 & Hd2 & ->).
    destruct (tree_at_Node _ _ _ _ _ _ _ _ H1)
      as (a1 & c1 & Fl1 & Fr1 & -> & Ha1 & (Hv1 & Hs1 & Hq1) & _ & _
          & _ & _ & _ & HF1).
    destruct fuel as [|fuel]; [lia|].
    destruct (IH st (Some a1) (Store.c_lson c2) F1 Fl2 fuel)
      as (l & st1 & Hrun & Hl & Hout); [done | done | set_solver | |].
    { simpl in *. lia. }
    destruct Hout as [Hts Hns].
    assert (Ha2' : Store.nodes st1 !! a2 = Some c2).
    { rewrite Hns; [done | set_solver]. }
    destruct (relink_store st1 a2 c2 v2 q2 l (Store.c_rson c2)
                (merge (Node v1 s1 q1 l1 r1) l2) r2 (F1 ∪ Fl2) Fr2)
      as [Hsync Htree]; [done | done | ..].
    { done. }
    { apply (tree_at_frame _ _ _ _ _ Hr2). intros b Hb. apply Hns. set_solver. }
    { set_solver. } { done. } { set_solver. }
    exists (Some a2),
      (upd st1 a2
         (Store.mkCell (Store.c_value c2)
            (1 + size_of (merge (Node v1 s1 q1 l1 r1) l2) + size_of r2) (Store.c_priority c2)
            l (Store.c_rson c2))).
    split; [|split].
    + cbn [Store.merge].
      rewrite (bind_Some _ _ st c1 st) by by apply load_node_Some.
      rewrite (bind_Some _ _ st c2 st) by by apply load_node_Some.
      destruct (Z.gtb_spec (Store.c_priority c1) (Store.c_priority c2));
        [lia|].
      rewrite (bind_Some _ _ _ _ _ Hrun).
      rewrite (bind_Some _ _ _ _ _ (set_lson_Some _ _ _ l Ha2')).
      by rewrite (bind_Some _ _ _ _ _ Hsync).
    + replace (F1 ∪ ({[a2]} ∪ Fl2 ∪ Fr2)) with ({[a2]} ∪ (F1 ∪ Fl2) ∪ Fr2)
        by set_solver.
      exact Htree.
    + apply (same_outside_upd (F1 ∪ Fl2)); [done | set_solver | set_solver].
Qed.

(** [split] over the store cuts, in place, the way the pure [split] does:
    the two results are trees over disjoint parts of the addresses of the
    argument. *)
Lemma split_store n index :
  ∀ st p F fuel,
    Store.tree_at (Store.nodes st) p n F →
    (height n < fuel)%nat →
    ∃ pl pr st' Fl Fr,
      Store.split fuel p index st = Some ((pl, pr), st') ∧
      Store.tree_at (Store.nodes st') pl (split n index).1 Fl ∧
      Store.tree_at (Store.nodes st') pr (split n index).2 Fr ∧
      Fl ## Fr ∧ Fl ∪ Fr = F ∧
      Store.same_outside F st st'.
Proof.
  induction n as [|v s q l IHl r IHr]; intros st p F fuel Hp Hfuel.
  - inversion Hp; subst. destruct fuel; [lia|].
    exists None, None, st, ∅, ∅. simpl.
    repeat split; try done; constructor.
  - destruct (tree_at_Node _ _ _ _ _ _ _ _ Hp)
      as (a & c & Fl & Fr & -> & Ha & (Hv & Hs & Hq) & Hl & Hr
          & Hal & Har & Hd & ->).
    destruct fuel as [|fuel]; [lia|]. simpl in Hfuel.
    rewrite split_Node. cbn [Store.split].
    rewrite (bind_Some _ _ st c st) by by apply load_node_Some.
    rewrite Hs.
    destruct (index <? 0).
    { exists None, (Some a), st, ∅, ({[a]} ∪ Fl ∪ Fr). simpl.
      repeat split; try done; try constructor; set_solver. }
    destruct (index >=? s).
    { exists (Some a), None, st, ({[a]} ∪ Fl ∪ Fr), ∅. simpl.
      repeat split; try done; try constructor; set_solver. }
    assert (Hpos :
      (match Store.c_lson c with
       | Some la => lc ← Store.load_node la; Store.ret (index - Store.c_size lc)
       | None => Store.ret index
       end) st = Some (index - size_of l, st)).
    { destruct (Store.c_lson c) as [la|] eqn:Hlson.
      - destruct (tree_at_size _ _ _ _ Hl) as (lc & Hlc & Hsz & _).
        rewrite (bind_Some _ _ st lc st) by by apply load_node_Some.
        by rewrite Hsz.
      - apply tree_at_None in Hl as [-> _]. simpl.
        unfold Store.ret. by rewrite Z.sub_0_r. }
    rewrite (bind_Some _ _ _ _ _ Hpos). clear Hpos.
    destruct (index - size_of l <? 0); [|destruct (index - size_of l >? 0)].
    + destruct (IHl st (Store.c_lson c) Fl fuel Hl)
        as (pl & pr & st1 & Fa & Fb & Hrun & Hta & Htb & Hab & HF & Hts & Hns);
        [lia|].
      assert (Ha' : Store.nodes st1 !! a = Some c)
        by (rewrite Hns; [done | set_solver]).
      destruct (relink_store st1 a c v q pr (Store.c_rson c)
                  (split l index).2 r Fb Fr)
        as [Hsync Htree]; [done | done | ..].
      { done. }
      { apply (tree_at_frame _ _ _ _ _ Hr). intros b Hb. apply Hns. set_solver. }
      { set_solver. } { done. } { set_solver. }
      exists pl, (Some a),
        (upd st1 a
           (Store.mkCell (Store.c_value c)
              (1 + size_of (split l index).2 + size_of r)
              (Store.c_priority c) pr (Store.c_rson c))),
        Fa, ({[a]} ∪ Fb ∪ Fr).
      split; [|split; [|split; [|split; [|split]]]].
      * rewrite (bind_Some _ _ _ _ _ Hrun). simpl.
        rewrite (bind_Some _ _ _ _ _ (set_lson_Some _ _ _ pr Ha')).
        by rewrite (bind_Some _ _ _ _ _ Hsync).
      * simpl. apply tree_at_upd; [done | set_solver].
      * exact Htree.
      * set_solver.
      * set_solver.
      * apply (same_outside_upd Fl); [done | set_solver | set_solver].
    + destruct (IHr st (Store.c_rson c) Fr fuel Hr)
        as (pl & pr & st1 & Fa & Fb & Hrun & Hta & Htb & Hab & HF & Hts & Hns);
        [lia|].
      assert (Ha' : Store.nodes st1 !! a = Some c)
        by (rewrite Hns; [done | set_solver]).
      destruct (relink_store st1 a c v q (Store.c_lson c) pl
                  l (split r index).1 Fl Fa)
        as [Hsync Htree]; [done | done | ..].
      { apply (tree_at_frame _ _ _ _ _ Hl). intros b Hb. apply Hns. set_solver. }
      { done. } { done. } { set_solver. } { set_solver. }
      exists (Some a), pr,
        (upd st1 a
           (Store.mkCell (Store.c_value c)
              (1 + size_of l + size_of (split r index).1)
              (Store.c_priority c) (Store.c_lson c) pl)),
        ({[a]} ∪ Fl ∪ Fa), Fb.
      split; [|split; [|split; [|split; [|split]]]].
      * rewrite (bind_Some _ _ _ _ _ Hrun). simpl.
        rewrite (bind_Some _ _ _ _ _ (set_rson_Some _ _ _ pl Ha')).
        by rewrite (bind_Some _ _ _ _ _ Hsync).
      * exact Htree.
      * simpl. apply tree_at_upd; [done | set_solver].
      * set_solver.
      * set_solver.
      * apply (same_outside_upd Fr); [done | set_solver | set_solver].
    + destruct (relink_store st a c v q (Store.c_lson c) None l Nil Fl ∅)
        as [Hsync Htree]; [done | done | ..].
      { done. } { constructor. } { done. } { set_solver. } { set_solver. }
      exists (Some a), (Store.c_rson c),
        (upd st a
           (Store.mkCell (Store.c_value c) (1 + size_of l + size_of Nil)
              (Store.c_priority c) (Store.c_lson c) None)),
        ({[a]} ∪ Fl ∪ ∅), Fr.
      split; [|split; [|split; [|split; [|split]]]].
      * rewrite (bind_Some _ _ _ _ _ (set_rson_Some _ _ _ None Ha)).
        by rewrite (bind_Some _ _ _ _ _ Hsync).
      * exact Htree.
      * simpl. by apply tree_at_upd.
      * set_solver.
      * set_solver.
      * apply (same_outside_upd ∅);
          [apply same_outside_refl | set_solver | set_solver].
Qed.

(** The in-place [split] shows the behaviour of the tree embedding: cutting
    the chain [[10; 20; 30]] at index [1] hands back the whole chain as the
    left part and nil as the right part. *)
Example split_store_chain3 :
  fst <$> Store.split 4 (Some 2%positive) 1 Store.chain3_store
  = Some (Some 2%positive, None).
Proof. vm_compute. reflexivity. Qed.

Lemma bind_eq {A B} (m : Store.M A) (k : A → Store.M B) st :
  (m ≫= k) st = match m st with Some (a, st') => k a st' | None => None end.
Proof. reflexivity. Qed.

Lemma export_store ns p n F :
  Store.tree_at ns p n F →
  ∀ st fuel values position,
    Store.nodes st = ns → (height n < fuel)%nat →
    Store.export fuel values position p st =
    (λ vs, (vs, st)) <$> export values position n.
Proof.
  induction 1 as [|a c l r Fl Fr Ha Hl IHl Hr IHr Hal Har Hd];
    intros st fuel values position Hst Hfuel.
  - destruct fuel; [lia|]. done.
  - destruct fuel as [|fuel]; [lia|]. simpl in Hfuel.
    rewrite export_Node. cbn [Store.export].
    rewrite (bind_Some _ _ st c st) by (apply load_node_Some; congruence).
    rewrite bind_eq.
    destruct (Store.c_lson c) as [la|] eqn:Hlson.
    + destruct (tree_at_size _ _ _ _ Hl) as (lc & Hlc & Hsz & _).
      rewrite bind_eq, (IHl st fuel values position Hst) by lia.
      destruct (export values position l) as [values0|]; [|done]. simpl.
      rewrite (bind_Some _ _ st lc st) by (apply load_node_Some; congruence).
      unfold Store.ret. rewrite Hsz.
      destruct (slice_set values0 (position + size_of l) (Store.c_value c));
        [|done].
      apply IHr; [done | lia].
    + apply tree_at_None in Hl as [-> _]. simpl.
      rewrite Z.add_0_r.
      destruct (slice_set values position (Store.c_value c)); [|done].
      apply IHr; [done | lia].
Qed.

Lemma Find_store st t h index fuel :
  represents st t h → (handle_height h < fuel)%nat →
  Store.Find fuel t index st = Some (Find h index, st).
Proof.
  intros [F Hh] Hfuel. destruct Hh as [|ta r n F Hta Hn]; [done|].
  unfold Store.Find, Find. simpl in *.
  rewrite (bind_Some _ _ st r st) by by apply load_root_Some.
  destruct r as [ra|].
  - destruct (tree_at_size _ _ _ _ Hn) as (c & Hc & Hsz & _).
    rewrite (bind_Some _ _ st c st) by by apply load_node_Some.
    inversion Hn; subst. simpl in *.
    assert (c0 = c) as -> by congruence.
    destruct ((index <? 0) || (index >=? Store.c_size c)); [done|].
    by apply (Find_loop_store _ _ _ _ Hn).
  - by apply tree_at_None in Hn as [-> _].
Qed.

Lemma Size_store st t h :
  represents st t h → Store.Size t st = Some (Size h, st).
Proof.
  intros [F Hh]. destruct Hh as [|ta r n F Hta Hn]; [done|].
  unfold Store.Size, Size. simpl.
  rewrite (bind_Some _ _ st r st) by by apply load_root_Some.
  destruct r as [ra|].
  - destruct (tree_at_size _ _ _ _ Hn) as (c & Hc & Hsz & _).
    rewrite (bind_Some _ _ st c st) by by apply load_node_Some.
    inversion Hn; subst. simpl in *. by rewrite Hsz.
  - by apply tree_at_None in Hn as [-> _].
Qed.

Lemma Export_store st t h fuel :
  represents st t h → (handle_height h < fuel)%nat →
  Store.Export fuel t st = (λ vs, (vs, st)) <$> Export h.
Proof.
  intros [F Hh] Hfuel. destruct Hh as [|ta r n F Hta Hn]; [done|].
  unfold Store.Export, Export. simpl in *.
  rewrite (bind_Some _ _ st r st) by by apply load_root_Some.
  destruct r as [ra|].
  - destruct (tree_at_size _ _ _ _ Hn) as (c & Hc & Hsz & _).
    rewrite (bind_Some _ _ st c st) by by apply load_node_Some.
    inversion Hn; subst. simpl in *.
    assert (c0 = c) as -> by congruence.
    destruct (Store.c_size c <? 0); [done|].
    by apply (export_store _ _ _ _ Hn).
  - by apply tree_at_None in Hn as [-> _].
Qed.

(** *** What the read operations leave behind on any store *)

Lemma load_node_frame a st c st' :
  Store.load_node a st = Some (c, st') → st' = st ∧ Store.nodes st !! a = Some c.
Proof.
  unfold Store.load_node. destruct (Store.nodes st !! a); [|done].
  by intros [= -> ->].
Qed.

Lemma load_root_frame a st r st' :
  Store.load_root a st = Some (r, st') → st' = st.
Proof.
  unfold Store.load_root. destruct (Store.treaps st !! a); [|done].
  by intros [= _ ->].
Qed.

Lemma Find_loop_frame fuel :
  ∀ n index st r st',
    Store.Find_loop fuel n index st = Some (r, st') → st' = st.
Proof.
  induction fuel as [|fuel IH]; intros n index st r st' H; [done|].
  cbn [Store.Find_loop] in H.
  destruct n as [a|]; [|by injection H].
  rewrite bind_eq in H.
  destruct (Store.load_node a st) as [[c st1]|] eqn:Hc; [|done].
  apply load_node_frame in Hc as [-> _].
  rewrite bind_eq in H.
  destruct (Store.c_lson c) as [la|].
  - rewrite bind_eq in H.
    destruct (Store.load_node la st) as [[lc st1]|] eqn:Hlc; [|done].
    apply load_node_frame in Hlc as [-> _]. simpl in H.
    repeat case_match; eauto. by injection H.
  - simpl in H. repeat case_match; eauto. by injection H.
Qed.

Lemma Find_frame fuel t index st r st' :
  Store.Find fuel t index st = Some (r, st') → st' = st.
Proof.
  unfold Store.Find. destruct t as [ta|]; [|by intros [= _ ->]].
  rewrite bind_eq.
  destruct (Store.load_root ta st) as [[rt st1]|] eqn:Hr; [|done].
  apply load_root_frame in Hr as ->.
  destruct rt as [ra|]; [|by intros [= _ ->]].
  rewrite bind_eq.
  destruct (Store.load_node ra st) as [[c st1]|] eqn:Hc; [|done].
  apply load_node_frame in Hc as [-> _].
  case_match; [by intros [= _ ->] | apply Find_loop_frame].
Qed.

Lemma Size_frame t st r st' :
  Store.Size t st = Some (r, st') → st' = st.
Proof.
  unfold Store.Size. destruct t as [ta|]; [|by intros [= _ ->]].
  rewrite bind_eq.
  destruct (Store.load_root ta st) as [[rt st1]|] eqn:Hr; [|done].
  apply load_root_frame in Hr as ->.
  destruct rt as [ra|]; [|by intros [= _ ->]].
  rewrite bind_eq.
  destruct (Store.load_node ra st) as [[c st1]|] eqn:Hc; [|done].
  apply load_node_frame in Hc as [-> _].
  by intros [= _ ->].
Qed.

Lemma export_frame fuel :
  ∀ values position n st r st',
    Store.export fuel values position n st = Some (r, st') → st' = st.
Proof.
  induction fuel as [|fuel IH]; intros values position n st r st' H; [done|].
  cbn [Store.export] in H.
  destruct n as [a|]; [|by injection H].
  rewrite bind_eq in H.
  destruct (Store.load_node a st) as [[c st1]|] eqn:Hc; [|done].
  apply load_node_frame in Hc as [-> _].
  rewrite bind_eq in H.
  destruct (Store.c_lson c) as [la|].
  - rewrite bind_eq in H.
    destruct (Store.export fuel values position (Some la) st)
      as [[values1 st1]|] eqn:Hl; [|done].
    apply IH in Hl as ->.
    rewrite bind_eq in H.
    destruct (Store.load_node la st) as [[lc st1]|] eqn:Hlc; [|done].
    apply load_node_frame in Hlc as [-> _]. simpl in H.
    case_match; [eauto | done].
  - simpl in H. case_match; [eauto | done].
Qed.

Lemma Export_frame fuel t st r st' :
  Store.Export fuel t st = Some (r, st') → st' = st.
Proof.
  unfold Store.Export. destruct t as [ta|]; [|by intros [= _ ->]].
  rewrite bind_eq.
  destruct (Store.load_root ta st) as [[rt st1]|] eqn:Hr; [|done].
  apply load_root_frame in Hr as ->.
  destruct rt as [ra|]; [|by intros [= _ ->]].
  rewrite bind_eq.
  destruct (Store.load_node ra st) as [[c st1]|] eqn:Hc; [|done].
  apply load_node_frame in Hc as [-> _].
  case_match; [done | apply export_frame].
Qed.

(** ** More facts about [split] *)

Lemma size_inv_Node_pos v s p l r : size_inv (Node v s p l r) → 1 <= s.
Proof.
  intros (Hs & Hl & Hr).
  pose proof (size_inv_nonneg _ Hl). pose proof (size_inv_nonneg _ Hr). lia.
Qed.

Lemma size_inv_zero n : size_inv n → size_of n = 0 → n = Nil.
Proof.
  destruct n as [|v s p l r]; [done|].
  intros H Hz. apply size_inv_Node_pos in H. simpl in Hz. lia.
Qed.

Lemma split_size_of n index :
  size_inv n →
  size_of (split n index).1 + size_of (split n index).2 = size_of n.
Proof.
  intros Hinv. destruct (split_size_inv n index Hinv) as [H1 H2].
  rewrite <- (size_inv_length _ H1), <- (size_inv_length _ H2),
    <- (size_inv_length _ Hinv), <- (split_inorder n index), length_app.
  lia.
Qed.

(** The left part of [split] never holds fewer than the [index + 1]
    elements asked for (it may hold more). *)
Lemma split_left_bound n index :
  size_inv n → 0 <= index →
  Z.min (index + 1) (size_of n) <= size_of (split n index).1.
Proof.
  intros Hinv Hi.
  induction n as [|v s p l IHl r IHr]; [simpl; lia|].
  destruct Hinv as (Hs & Hl & Hr).
  specialize (IHl Hl). specialize (IHr Hr).
  pose proof (size_inv_nonneg _ Hl). pose proof (size_inv_nonneg _ Hr).
  rewrite split_Node. cbn [size_of] in *.
  destruct (Z.ltb_spec index 0); [lia|].
  destruct (Z.geb_spec index s); [simpl; lia|].
  destruct (Z.ltb_spec (index - size_of l) 0); [simpl; lia|].
  destruct (Z.gtb_spec (index - size_of l) 0); simpl; lia.
Qed.

(** At index [0], [split] is exact: the left part is one element. *)
Lemma split_zero_size n :
  size_inv n → n ≠ Nil → size_of (split n 0).1 = 1.
Proof.
  intros Hinv Hn.
  induction n as [|v s p l IHl r IHr]; [done|].
  pose proof (size_inv_Node_pos _ _ _ _ _ Hinv) as Hpos.
  destruct Hinv as (Hs & Hl & Hr).
  pose proof (size_inv_nonneg _ Hl). pose proof (size_inv_nonneg _ Hr).
  rewrite split_Node.
  destruct (Z.ltb_spec 0 0); [lia|].
  destruct (Z.geb_spec 0 s); [lia|].
  destruct (Z.ltb_spec (0 - size_of l) 0).
  - simpl. apply IHl; [done|]. intros ->. simpl in *. lia.
  - destruct (Z.gtb_spec (0 - size_of l) 0); [lia|]. simpl. lia.
Qed.

(** The two parts of [split], read as pieces of the sequence. *)
Lemma split_take_drop n index :
  size_inv n →
  inorder (split n index).1
    = take (Z.to_nat (size_of (split n index).1)) (inorder n) ∧
  inorder (split n index).2
    = drop (Z.to_nat (size_of (split n index).1)) (inorder n).
Proof.
  intros Hinv. destruct (split_size_inv n index Hinv) as [H1 _].
  pose proof (size_inv_length _ H1) as Hlen.
  rewrite <- (split_inorder n index).
  replace (Z.to_nat (size_of (split n index).1))
    with (length (inorder (split n index).1)) by lia.
  by rewrite take_app_length, drop_app_length.
Qed.

Lemma wrap_pred_0 : wrap (0 - 1) = -1.
Proof. reflexivity. Qed.

Lemma wrap_pred z : - 2 ^ 63 < z → is_int z → wrap (z - 1) = z - 1.
Proof. intros Hz [? ?]. apply wrap_int. unfold is_int. lia. Qed.

Lemma wrap_min_pred : wrap (- 2 ^ 63 - 1) = 2 ^ 63 - 1.
Proof. reflexivity. Qed.

(** ** More facts about the handle operations *)

Lemma Treap_eta t : mkTreap (root t) = t.
Proof. by destruct t. Qed.

(** [Find] reads the sequence behind the handle. *)
Lemma Find_seq_of t i :
  handle_inv size_inv t → 0 <= i < Size t →
  seq_of t !! Z.to_nat i = Some (Find t i).
Proof.
  intros Hinv Hi. destruct t as [t|]; [|simpl in Hi; lia].
  unfold Find, Size, seq_of in *. simpl in Hinv.
  destruct (root t) as [|v s p l r] eqn:Hroot; [lia|].
  destruct (Z.ltb_spec i 0); [lia|].
  destruct (Z.geb_spec i s); [lia|].
  by apply Find_loop_inorder.
Qed.

(** [Cut] past its guards. *)
Lemma Cut_Node t v s p l r index_left index_right :
  root t = Node v s p l r →
  Cut (Some t) index_left index_right =
  if index_left >? index_right then Some t
  else if (index_right <? 0) || (index_left >=? s) then Some t
  else
    Some (mkTreap
            (merge (split (root t) (wrap (index_left - 1))).1
               (split (split (root t) (wrap (index_left - 1))).2
                  index_right).2)).
Proof.
  intros Hroot. unfold Cut. rewrite Hroot.
  destruct (split (Node v s p l r) (wrap (index_left - 1))) as [a k].
  cbn [fst snd]. by destruct (split k index_right).
Qed.

(** [Delete] past its guards. *)
Lemma Delete_Node t v s p l r index :
  root t = Node v s p l r →
  Delete (Some t) index =
  if (index <? 0) || (index >=? s) then Some t
  else
    Some (mkTreap
            (merge (split (root t) (wrap (index - 1))).1
               (split (split (root t) (wrap (index - 1))).2 index).2)).
Proof.
  intros Hroot. unfold Delete. rewrite Hroot.
  destruct (split (Node v s p l r) (wrap (index - 1))) as [a k].
  cbn [fst snd]. by destruct (split k index).
Qed.

(** What [Cut] and [Delete] build once the guards are passed: the
    sequence with one block taken out. *)
Lemma cut_core_inorder n a b :
  ∃ pre mid suf,
    inorder n = pre ++ mid ++ suf ∧
    inorder (merge (split n a).1 (split (split n a).2 b).2) = pre ++ suf ∧
    pre = inorder (split n a).1.
Proof.
  exists (inorder (split n a).1),
    (inorder (split (split n a).2 b).1),
    (inorder (split (split n a).2 b).2).
  split; [|split; [apply merge_inorder | done]].
  by rewrite (split_inorder (split n a).2 b), (split_inorder n a).
Qed.

Lemma split_neg n index : index < 0 → split n index = (Nil, n).
Proof.
  intros Hi. destruct n as [|v s p l r]; [done|]. rewrite split_Node.
  destruct (Z.ltb_spec index 0); [done | lia].
Qed.

Lemma Delete_zero_seq_of t :
  handle_inv size_inv t → seq_of (Delete t 0) = drop 1 (seq_of t).
Proof.
  intros Hinv. destruct t as [t|]; [|done]. simpl in Hinv.
  destruct (root t) as [|v s p l r] eqn:Hroot.
  { unfold Delete. rewrite Hroot. simpl. by rewrite Hroot. }
  rewrite (Delete_Node t v s p l r 0 Hroot).
  pose proof (size_inv_Node_pos _ _ _ _ _ Hinv) as Hpos.
  destruct (Z.ltb_spec 0 0); [lia|].
  destruct (Z.geb_spec 0 s); [lia|]. simpl orb. cbv iota.
  rewrite wrap_pred_0, Hroot, split_neg by lia. cbn [fst snd seq_of root].
  rewrite merge_Nil_l.
  destruct (split_take_drop (Node v s p l r) 0 Hinv) as [_ ->].
  rewrite split_zero_size by done. by rewrite Hroot.
Qed.

Lemma iter_Delete_zero k t :
  reachable t →
  reachable (Nat.iter k (λ h, Delete h 0) t) ∧
  seq_of (Nat.iter k (λ h, Delete h 0) t) = drop k (seq_of t).
Proof.
  intros Hr. induction k as [|k [IHr IHs]]; [done|].
  rewrite Nat.iter_succ. split; [by apply reach_Delete|].
  rewrite Delete_zero_seq_of by by apply reachable_size_inv.
  rewrite IHs, drop_drop. f_equal. lia.
Qed.

Lemma Size_zero_seq_of t :
  handle_inv size_inv t → seq_of t = [] → Size t = 0.
Proof. intros Hinv Hs. by rewrite Size_length, Hs. Qed.

(** [Cut(0, right)] with [right] at or past the last index. *)
Lemma Cut_all_seq_of t right :
  handle_inv size_inv t → Size t - 1 <= right →
  seq_of (Cut t 0 right) = [].
Proof.
  intros Hinv Hr. destruct t as [t|]; [|done]. simpl in Hinv.
  destruct (root t) as [|v s p l r] eqn:Hroot.
  { unfold Cut. rewrite Hroot. simpl. by rewrite Hroot. }
  rewrite (Cut_Node t v s p l r 0 right Hroot).
  pose proof (size_inv_Node_pos _ _ _ _ _ Hinv) as Hpos.
  unfold Size in Hr. rewrite Hroot in Hr.
  destruct (Z.gtb_spec 0 right); [lia|].
  destruct (Z.ltb_spec right 0); [lia|].
  destruct (Z.geb_spec 0 s); [lia|]. simpl orb. cbv iota.
  rewrite wrap_pred_0, Hroot, split_neg by lia. cbn [fst snd seq_of root].
  rewrite merge_Nil_l.
  assert (Hb := split_left_bound _ right Hinv ltac:(lia)).
  pose proof (split_size_of _ right Hinv) as Hsum.
  destruct (split_size_inv _ right Hinv) as [_ H2].
  pose proof (size_inv_nonneg _ H2).
  cbn [size_of] in Hb, Hsum.
  rewrite (size_inv_zero _ H2); [done|]. lia.
Qed.

(** [Cut] takes one block out of the sequence and never reaches into the
    first [index_left] elements. *)
Lemma Cut_block t index_left index_right :
  handle_inv size_inv t → is_int index_left →
  ∃ pre mid suf,
    seq_of t = pre ++ mid ++ suf ∧
    seq_of (Cut t index_left index_right) = pre ++ suf ∧
    Z.min index_left (Size t) <= Z.of_nat (length pre).
Proof.
  intros Hinv Hint.
  assert (Hnoop : Cut t index_left index_right = t →
    ∃ pre mid suf,
      seq_of t = pre ++ mid ++ suf ∧
      seq_of (Cut t index_left index_right) = pre ++ suf ∧
      Z.min index_left (Size t) <= Z.of_nat (length pre)).
  { intros ->. exists (seq_of t), [], []. rewrite !app_nil_r.
    split; [done|]. split; [done|]. rewrite (Size_length _ Hinv). lia. }
  destruct t as [t|]; [|by apply Hnoop]. simpl in Hinv.
  destruct (root t) as [|v s p l r] eqn:Hroot.
  { apply Hnoop. unfold Cut. by rewrite Hroot. }
  rewrite (Cut_Node t v s p l r _ _ Hroot) in Hnoop |- *.
  destruct (index_left >? index_right); [by apply Hnoop|].
  destruct (Z.ltb_spec index_right 0); [by apply Hnoop|].
  destruct (Z.geb_spec index_left s); [by apply Hnoop|].
  clear Hnoop. simpl orb. cbv iota. rewrite Hroot.
  destruct (cut_core_inorder (Node v s p l r) (wrap (index_left - 1))
              index_right) as (pre & mid & suf & HS & Hcut & Hpre).
  exists pre, mid, suf. cbn [seq_of root]. rewrite Hroot.
  split; [done|]. split; [done|].
  destruct (Z.le_gt_cases index_left 0) as [Hle|Hgt]; [lia|].
  rewrite wrap_pred in Hpre by (destruct Hint; lia || done).
  destruct (split_size_inv _ (index_left - 1) Hinv) as [H1 _].
  rewrite Hpre, (size_inv_length _ H1).
  assert (Hb := split_left_bound _ (index_left - 1) Hinv ltac:(lia)).
  unfold Size. rewrite Hroot. cbn [size_of] in Hb. lia.
Qed.

(** A negative [index_left] other than the least [int] acts as [0]. *)
Lemma Cut_negative_left t index_left index_right :
  handle_inv size_inv t → - 2 ^ 63 < index_left < 0 →
  Cut t index_left index_right = Cut t 0 index_right.
Proof.
  intros Hinv Hl. destruct t as [t|]; [|done]. simpl in Hinv.
  destruct (root t) as [|v s p l r] eqn:Hroot.
  { unfold Cut. by rewrite Hroot. }
  rewrite !(Cut_Node t v s p l r _ _ Hroot).
  pose proof (size_inv_Node_pos _ _ _ _ _ Hinv) as Hpos.
  destruct (Z.ltb_spec index_right 0).
  { simpl orb. by destruct (index_left >? index_right), (0 >? index_right). }
  destruct (Z.gtb_spec index_left index_right); [lia|].
  destruct (Z.gtb_spec 0 index_right); [lia|].
  destruct (Z.geb_spec index_left s); [lia|].
  destruct (Z.geb_spec 0 s); [lia|]. simpl orb. cbv iota.
  rewrite wrap_pred_0, wrap_pred by (unfold is_int; lia).
  by rewrite (split_neg _ (index_left - 1)), (split_neg _ (-1)) by lia.
Qed.

(** With [index_left] the least [int], [index_left - 1] wraps around to
    the greatest one and [Cut] removes nothing. *)
Lemma Cut_min_int t index_right :
  handle_inv size_inv t → Size t < 2 ^ 63 →
  Cut t (- 2 ^ 63) index_right = t.
Proof.
  intros Hinv Hsz. destruct t as [t|]; [|done]. simpl in Hinv.
  destruct (root t) as [|v s p l r] eqn:Hroot.
  { unfold Cut. by rewrite Hroot. }
  rewrite (Cut_Node t v s p l r _ _ Hroot).
  unfold Size in Hsz. rewrite Hroot in Hsz.
  repeat case_match; try done.
  rewrite wrap_min_pred, Hroot, split_Node.
  destruct (Z.ltb_spec (2 ^ 63 - 1) 0); [lia|].
  destruct (Z.geb_spec (2 ^ 63 - 1) s); [|lia].
  cbn [fst snd split]. rewrite merge_Nil_r, <- Hroot. by rewrite Treap_eta.
Qed.

(** [Insert] puts the value somewhere at or after position [index],
    between two pieces of the old sequence. *)
Lemma Insert_seq_of t index value g :
  size_inv (root t) → is_int index →
  ∃ pre suf,
    inorder (root t) = pre ++ suf ∧
    seq_of (Insert (Some t) index value g).1 = pre ++ [value] ++ suf ∧
    Z.min (Z.max index 0) (Size (Some t)) <= Z.of_nat (length pre).
Proof.
  intros Hinv Hint.
  pose proof (PushFront_seq_of t [value] g) as HF.
  pose proof (PushBack_seq_of t [value] g) as HB.
  pose proof (size_inv_length _ Hinv) as Hlen.
  unfold Insert, Size.
  destruct (root t) as [|v s p l r] eqn:Hroot.
  { exists [], []. simpl. split; [done|]. split; [done | lia]. }
  pose proof (size_inv_Node_pos _ _ _ _ _ Hinv) as Hpos.
  cbn [size_of] in Hlen.
  destruct (Z.leb_spec index 0).
  { exists [], (inorder (Node v s p l r)).
    split; [done|]. split; [by rewrite HF|]. simpl. lia. }
  destruct (Z.geb_spec index (s - 1)).
  { exists (inorder (Node v s p l r)), [].
    rewrite !app_nil_r. split; [done|]. split; [by rewrite HB | lia]. }
  rewrite wrap_pred by (destruct Hint; lia || done).
  pose proof (split_inorder (Node v s p l r) (index - 1)) as Hsp.
  destruct (split_size_inv _ (index - 1) Hinv) as [H1 _].
  assert (Hb := split_left_bound _ (index - 1) Hinv ltac:(lia)).
  pose proof (size_inv_length _ H1) as Hl1.
  destruct (split (Node v s p l r) (index - 1)) as [a b].
  cbn [fst snd size_of] in *.
  exists (inorder a), (inorder b).
  split; [done|]. split; [|lia].
  cbn [seq_of root fst rand_Int]. rewrite !merge_inorder. simpl.
  by rewrite <- app_assoc.
Qed.

(** [Insert] at or before the front is [PushFront]; at or past the last
    index it is [PushBack]. *)
Lemma Insert_as_Push t index value g :
  handle_inv size_inv t →
  index <= 0 ∨ index >= Size t - 1 →
  Insert t index value g =
  if index <=? 0 then PushFront t [value] g else PushBack t [value] g.
Proof.
  intros Hinv Hi. destruct t as [t|]; [|by case_match].
  simpl in Hinv. unfold Insert, Size in *.
  destruct (root t) as [|v s p l r] eqn:Hroot.
  - unfold PushFront, PushBack. cbn. rewrite Hroot.
    rewrite !merge_Nil_r, !merge_Nil_l. by case_match.
  - destruct (Z.leb_spec index 0); [done|].
    destruct (Z.geb_spec index (s - 1)); [done | lia].
Qed.

Lemma new_node_size_inv value p : size_inv (new_node value p).
Proof. simpl. auto with lia. Qed.

Lemma PushBack_size_inv t values g :
  handle_inv size_inv t → handle_inv size_inv (PushBack t values g).1.
Proof.
  apply PushBack_preserves;
    [done | apply new_node_size_inv | apply merge_size_inv].
Qed.

Lemma PushFront_size_inv t values g :
  handle_inv size_inv t → handle_inv size_inv (PushFront t values g).1.
Proof.
  apply PushFront_preserves;
    [done | apply new_node_size_inv | apply merge_size_inv].
Qed.

(** [Find] after a push reads the old elements and the new ones. *)
Lemma Find_PushBack t values g i :
  size_inv (root t) → 0 <= i < Size (Some t) + Z.of_nat (length values) →
  Find (PushBack (Some t) values g).1 i =
  if i <? Size (Some t) then Find (Some t) i
  else nth (Z.to_nat (i - Size (Some t))) values 0.
Proof.
  intros Hinv Hi.
  assert (Hinv' : handle_inv size_inv (PushBack (Some t) values g).1)
    by by apply PushBack_size_inv.
  pose proof (Size_length (Some t) Hinv) as Hsz. cbn [seq_of] in Hsz.
  assert (HF := Find_seq_of _ i Hinv').
  rewrite PushBack_seq_of in HF.
  rewrite (Size_length _ Hinv'), PushBack_seq_of, length_app in HF.
  specialize (HF ltac:(lia)).
  destruct (Z.ltb_spec i (Size (Some t))).
  - rewrite lookup_app_l in HF by lia.
    assert (HG := Find_seq_of (Some t) i Hinv ltac:(lia)).
    cbn [seq_of] in HG. congruence.
  - rewrite lookup_app_r in HF by lia.
    replace (Z.to_nat i - length (inorder (root t)))%nat
      with (Z.to_nat (i - Size (Some t))) in HF by lia.
    apply (nth_lookup_Some _ _ 0) in HF. by rewrite HF.
Qed.

Lemma Find_PushFront t values g i :
  size_inv (root t) → 0 <= i < Size (Some t) + Z.of_nat (length values) →
  Find (PushFront (Some t) values g).1 i =
  if i <? Z.of_nat (length values) then nth (Z.to_nat i) (rev values) 0
  else Find (Some t) (i - Z.of_nat (length values)).
Proof.
  intros Hinv Hi.
  assert (Hinv' : handle_inv size_inv (PushFront (Some t) values g).1)
    by by apply PushFront_size_inv.
  pose proof (Size_length (Some t) Hinv) as Hsz. cbn [seq_of] in Hsz.
  assert (HF := Find_seq_of _ i Hinv').
  rewrite PushFront_seq_of in HF.
  rewrite (Size_length _ Hinv'), PushFront_seq_of, length_app,
    length_rev in HF.
  specialize (HF ltac:(lia)).
  destruct (Z.ltb_spec i (Z.of_nat (length values))).
  - rewrite lookup_app_l in HF by (rewrite length_rev; lia).
    apply (nth_lookup_Some _ _ 0) in HF. by rewrite HF.
  - rewrite lookup_app_r, length_rev in HF by (rewrite length_rev; lia).
    assert (HG := Find_seq_of (Some t) (i - Z.of_nat (length values)) Hinv
                    ltac:(lia)).
    cbn [seq_of] in HG.
    replace (Z.to_nat (i - Z.of_nat (length values)))
      with (Z.to_nat i - length values)%nat in HG by lia.
    congruence.
Qed.

(** ** When [export] panics *)

Lemma slice_set_Some values position v :
  0 <= position < Z.of_nat (length values) →
  ∃ values', slice_set values position v = Some values' ∧
             length values' = length values.
Proof.
  intros Hp. unfold slice_set.
  destruct (Z.leb_spec 0 position); [|lia].
  destruct (Z.ltb_spec position (Z.of_nat (length values))); [|lia].
  eexists. split; [done|]. apply length_insert.
Qed.

Lemma slice_set_None values position v :
  position < 0 ∨ Z.of_nat (length values) <= position →
  slice_set values position v = None.
Proof.
  intros Hp. unfold slice_set.
  destruct (Z.leb_spec 0 position); [|done].
  destruct (Z.ltb_spec position (Z.of_nat (length values))); [lia | done].
Qed.

(** With room for the whole tree, [export] returns a slice of the same
    length. *)
Lemma export_Some n values position :
  size_inv n →
  0 <= position → position + size_of n <= Z.of_nat (length values) →
  ∃ values', export values position n = Some values' ∧
             length values' = length values.
Proof.
  intros Hinv Hp Hlen.
  pose proof (size_inv_nonneg _ Hinv) as H0.
  pose proof (size_inv_length _ Hinv) as Hl.
  set (pre := take (Z.to_nat position) values).
  set (mid := take (Z.to_nat (size_of n)) (drop (Z.to_nat position) values)).
  set (post := drop (Z.to_nat (size_of n)) (drop (Z.to_nat position) values)).
  assert (Hpre : length pre = Z.to_nat position)
    by (subst pre; rewrite length_take; lia).
  assert (Hmid : length mid = Z.to_nat (size_of n))
    by (subst mid; rewrite length_take, length_drop; lia).
  assert (Hv : values = pre ++ mid ++ post)
    by (subst pre mid post; by rewrite !take_drop).
  clearbody pre mid post. subst values.
  rewrite (export_fill n Hinv) by lia.
  eexists. split; [done|]. rewrite !length_app. lia.
Qed.

(** Without room, it panics. *)
Lemma export_None n :
  size_inv n → n ≠ Nil →
  ∀ values position,
    position < 0 ∨ Z.of_nat (length values) < position + size_of n →
    export values position n = None.
Proof.
  induction n as [|v s p l IHl r IHr]; [done|].
  intros Hinv _ values position Hbad.
  pose proof (size_inv_Node_pos _ _ _ _ _ Hinv) as Hpos.
  destruct Hinv as (Hs & Hl & Hr).
  pose proof (size_inv_nonneg _ Hl) as Hl0.
  pose proof (size_inv_nonneg _ Hr) as Hr0.
  cbn [size_of] in Hbad. rewrite export_Node.
  destruct (decide (position < 0 ∨
                    Z.of_nat (length values) < position + size_of l))
    as [Hleft|Hleft].
  - assert (l = Nil ∨ l ≠ Nil) as [->|Hl']
      by (destruct l; [by left | by right]).
    + simpl. rewrite slice_set_None; [done|]. simpl in Hleft. lia.
    + by rewrite (IHl Hl Hl' values position Hleft).
  - destruct (export_Some l values position Hl) as (values1 & -> & Hlen1);
      [lia | lia |].
    destruct (decide (Z.of_nat (length values1) <= position + size_of l))
      as [Hmid|Hmid].
    + rewrite slice_set_None; [done | lia].
    + destruct (slice_set_Some values1 (position + size_of l) v)
        as (values2 & -> & Hlen2); [lia|].
      apply (IHr Hr).
      * intros ->. simpl in *. lia.
      * lia.
Qed.

(** ** Concrete stores *)

Lemma two_trees_chain :
  Store.tree_at (Store.nodes two_trees_store) (Some 2%positive)
    (Node 10 3 3 Nil (Node 20 2 2 Nil (Node 30 1 1 Nil Nil))) chain3_addrs.
Proof.
  apply (Store.tree_node _ 2%positive
           (Store.mkCell 10 3 3 None (Some 3%positive)));
    [done | constructor | | set_solver | set_solver | set_solver].
  apply (Store.tree_node _ 3%positive
           (Store.mkCell 20 2 2 None (Some 4%positive)));
    [done | constructor | | set_solver | set_solver | set_solver].
  apply (Store.tree_node _ 4%positive (Store.mkCell 30 1 1 None None));
    [done | constructor | constructor | set_solver | set_solver | set_solver].
Qed.

Lemma two_trees_single :
  Store.tree_at (Store.nodes two_trees_store) (Some 5%positive)
    (Node 40 1 5 Nil Nil) ({[5%positive]} ∪ ∅ ∪ ∅).
Proof.
  apply (Store.tree_node _ 5%positive (Store.mkCell 40 1 5 None None));
    [done | constructor | constructor | set_solver | set_solver | set_solver].
Qed.

Lemma two_trees_apart : chain3_addrs ## ({[5%positive]} ∪ ∅ ∪ ∅).
Proof. unfold chain3_addrs. set_solver. Qed.

Lemma two_trees_inner :
  Store.tree_at (Store.nodes two_trees_store) (Some 3%positive)
    (Node 20 2 2 Nil (Node 30 1 1 Nil Nil))
    ({[3%positive]} ∪ ∅ ∪ ({[4%positive]} ∪ ∅ ∪ ∅)).
Proof.
  apply (Store.tree_node _ 3%positive
           (Store.mkCell 20 2 2 None (Some 4%positive)));
    [done | constructor | | set_solver | set_solver | set_solver].
  apply (Store.tree_node _ 4%positive (Store.mkCell 30 1 1 None None));
    [done | constructor | constructor | set_solver | set_solver | set_solver].
Qed.

(** * The claims *)

(** ** C1 *)

(** C1 (the code departs from the claim).  [Cut(left, right)] is claimed
    to delete exactly the positions [left..right].  On [Create(10, 20, 30)]
    with decreasing draws, [Cut(0, 1)] should leave [[30]] and leaves
    nothing: [split] passes [index] unchanged into the right son, so the
    cut at position 1 swallows the whole chain.  On [Create(1, 2, 3, 4)]
    with increasing draws, where [split] is exact, [Cut(1, 1)] should leave
    [[1; 3; 4]] and leaves [[1; 4]]: the second [split] receives
    [index_right] although the remainder starts at [index_left]. *)
Theorem Cut_range_failing_inputs :
  Export chain3 = Some [10; 20; 30] ∧
  Export (Cut chain3 0 1) = Some [] ∧
  Export lchain4 = Some [1; 2; 3; 4] ∧
  Export (Cut lchain4 1 1) = Some [1; 4].
Proof. by vm_compute. Qed.

(** ** C2 *)

(** C2, as stated, fails: [PushFront(10, 20)] on the treap holding [[30]]
    yields [[20; 10; 30]], not [[10; 20; 30]]. *)
Lemma PushFront_order_counterexample :
  reachable (Create [30] (draws [7])).1 ∧
  Export (Create [30] (draws [7])).1 = Some [30] ∧
  Export (PushFront (Create [30] (draws [7])).1 [10; 20] (draws [5; 6])).1
    ≠ Some ([10; 20] ++ [30]).
Proof.
  split; [apply reach_Create|]. split; [by vm_compute|].
  vm_compute. discriminate.
Qed.

(** C2 (amended).  For every treap whose sequence is [S] and values
    [v1..vk], after [PushFront(v1, ..., vk)] the sequence is
    [[vk, ..., v1]] followed by [S] (each value is put in front of the ones
    pushed before it), and after [PushBack(v1, ..., vk)] the sequence is [S]
    followed by [[v1, ..., vk]]. *)
Theorem Push_order (t : Treap) (values S : list Z) (g : rng) :
  reachable (Some t) →
  Export (Some t) = Some S →
  Export (PushFront (Some t) values g).1 = Some (rev values ++ S) ∧
  Export (PushBack (Some t) values g).1 = Some (S ++ values).
Proof.
  intros Hr HS.
  pose proof (reachable_size_inv _ Hr) as Hinv.
  rewrite (Export_seq_of _ Hinv) in HS. injection HS as <-.
  split.
  - rewrite Export_seq_of, PushFront_seq_of; [done|].
    by apply reachable_size_inv, reach_PushFront.
  - rewrite Export_seq_of, PushBack_seq_of; [done|].
    by apply reachable_size_inv, reach_PushBack.
Qed.

Lemma Push_order_witness :
  Export (PushFront (Some (mkTreap (new_node 30 7))) [10; 20] (draws [5; 6])).1
    = Some (rev [10; 20] ++ [30]) ∧
  Export (PushBack (Some (mkTreap (new_node 30 7))) [10; 20] (draws [5; 6])).1
    = Some ([30] ++ [10; 20]).
Proof.
  apply (Push_order (mkTreap (new_node 30 7)) [10; 20] [30] (draws [5; 6])).
  - exact (reach_Create [30] (draws [7])).
  - reflexivity.
Defined.

(** ** C3 *)

(** C3.  Order fidelity: for every treap reachable through the public API
    and every index [i] with [0 <= i < Size()], [Export()] returns an array
    whose element at position [i] is the value returned by [Find(i)]. *)
Theorem order_fidelity (t : handle) (i : Z) :
  reachable t →
  0 <= i < Size t →
  ∃ values, Export t = Some values ∧ values !! Z.to_nat i = Some (Find t i).
Proof.
  intros Hr Hi. pose proof (reachable_size_inv _ Hr) as Hinv.
  exists (seq_of t). split; [by apply Export_seq_of|].
  destruct t as [t|]; [|simpl in Hi; lia].
  unfold Find, Size, seq_of in *. simpl in Hinv.
  destruct (root t) as [|v s p l r] eqn:Hroot; [lia|].
  destruct (Z.ltb_spec i 0); [lia|].
  destruct (Z.geb_spec i s); [lia|].
  simpl orb. cbv iota.
  by apply Find_loop_inorder.
Qed.

Lemma order_fidelity_witness :
  ∃ values, Export chain3 = Some values ∧
            values !! Z.to_nat 1 = Some (Find chain3 1).
Proof.
  apply (order_fidelity chain3 1).
  - apply reach_Create.
  - vm_compute. split; [discriminate | reflexivity].
Defined.

(** ** C4 *)

(** C4.  Split/merge round-trip: for any treap [T] and any [k] with
    [0 <= k < Size(T)], with [(L, R) = Split(T, k)], the [Export] of
    [Merge(L, R)] is the [Export] of [T] taken before the split. *)
Theorem split_merge_roundtrip (t : handle) (k : Z) :
  reachable t →
  0 <= k < Size t →
  ∃ S, Export t = Some S ∧
       Export (Merge (Split t k).1 (Split t k).2) = Some S.
Proof.
  intros Hr _. exists (seq_of t). split.
  - by apply Export_seq_of, reachable_size_inv.
  - rewrite Export_seq_of.
    + by rewrite Merge_seq_of, Split_seq_of.
    + apply reachable_size_inv, reach_Merge;
        [by apply reach_Split_l | by apply reach_Split_r].
Qed.

Lemma split_merge_roundtrip_witness :
  ∃ S, Export chain3 = Some S ∧
       Export (Merge (Split chain3 1).1 (Split chain3 1).2) = Some S.
Proof.
  apply (split_merge_roundtrip chain3 1).
  - apply reach_Create.
  - vm_compute. split; [discriminate | reflexivity].
Defined.

(** ** C5 *)

(** C5.  Size invariant: after any finite sequence of public operations
    starting from [Create] (handles being used as the package requires, see
    [reachable]), every node of the resulting tree satisfies
    [size == 1 + leftSize + rightSize], an absent child counting for [0];
    the next operation therefore never sees a stale cached size. *)
Theorem size_invariant (t : Treap) (v s p : Z) (l r : node) :
  reachable (Some t) →
  subnode (Node v s p l r) (root t) →
  s = 1 + size_of l + size_of r.
Proof.
  intros Hr. apply size_inv_subnode. exact (reachable_size_inv _ Hr).
Qed.

(** ** C6 *)

(** C6.  Heap invariant: after any finite sequence of public operations
    (handles being used as the package requires, see [reachable]), whatever
    the random draws were, every node's priority is greater than or equal
    to the priority of each of its present children. *)
Theorem heap_invariant (t : Treap) (v s p : Z) (l r : node) :
  reachable (Some t) →
  subnode (Node v s p l r) (root t) →
  prio_ge p l ∧ prio_ge p r.
Proof.
  intros Hr. apply heap_inv_subnode. exact (reachable_heap_inv _ Hr).
Qed.

Lemma size_invariant_witness :
  2 = 1 + size_of Nil + size_of (Node 30 1 1 Nil Nil).
Proof.
  apply (size_invariant
           (mkTreap (Node 10 3 3 Nil (Node 20 2 2 Nil (Node 30 1 1 Nil Nil))))
           20 2 2 Nil (Node 30 1 1 Nil Nil)).
  - exact (reach_Create [10; 20; 30] (draws [3; 2; 1])).
  - simpl. apply sub_rson, sub_here.
Defined.

Lemma heap_invariant_witness :
  prio_ge 2 Nil ∧ prio_ge 2 (Node 30 1 1 Nil Nil).
Proof.
  apply (heap_invariant
           (mkTreap (Node 10 3 3 Nil (Node 20 2 2 Nil (Node 30 1 1 Nil Nil))))
           20 2 2 Nil (Node 30 1 1 Nil Nil)).
  - exact (reach_Create [10; 20; 30] (draws [3; 2; 1])).
  - simpl. apply sub_rson, sub_here.
Defined.

(** ** C7 *)

Lemma chain4_eq :
  chain4 =
  Some (mkTreap
          (Node 1 4 4 Nil (Node 2 3 3 Nil (Node 3 2 2 Nil (Node 4 1 1 Nil Nil))))).
Proof. by vm_compute. Qed.

(** Whatever priority the new node draws, [Insert(2, 99)] on [chain4]
    puts [99] at the end and not at position 2: [split] hands back the
    whole chain as the left part. *)
Lemma Insert_middle_misplaced (g : rng) :
  Export (Insert chain4 2 99 g).1 = Some [1; 2; 3; 4; 99].
Proof.
  rewrite Export_seq_of
    by (apply reachable_size_inv, reach_Insert, reach_Create).
  rewrite chain4_eq. unfold Insert.
  replace (wrap (2 - 1)) with 1 by (by vm_compute).
  cbn -[merge inorder].
  change (2 >=? 4 - 1) with false. cbn -[merge inorder].
  by rewrite !merge_inorder.
Qed.

(** C7, as stated, fails.  On the one-element treap [[30]], index [0]
    satisfies [index >= n-1], yet [Insert(0, 99)] prepends: the test
    [index <= 0] comes first.  And on [chain4], [Insert(2, 99)] with
    [0 < 2 < n-1] does not yield [[1; 2; 99; 3; 4]]. *)
Lemma Insert_clamping_counterexample :
  (Export (Create [30] (draws [7])).1 = Some [30] ∧
   0 >= Size (Create [30] (draws [7])).1 - 1 ∧
   Export (Insert (Create [30] (draws [7])).1 0 99 (draws [5])).1
     ≠ Some ([30] ++ [99])) ∧
  (Export chain4 = Some [1; 2; 3; 4] ∧
   0 < 2 < Size chain4 - 1 ∧
   Export (Insert chain4 2 99 (draws [5])).1 ≠ Some ([1; 2] ++ [99] ++ [3; 4])).
Proof.
  split; (split; [by vm_compute|]); (split; [vm_compute|]).
  - discriminate.
  - discriminate.
  - split; reflexivity.
  - discriminate.
Qed.

(** C7 (amended).  On a treap whose sequence is [S] of size [n >= 1],
    [Insert(index, v)] prepends [v] (result [[v] ++ S]) when [index <= 0]
    and appends [v] (result [S ++ [v]]) when [index > 0] and
    [index >= n-1]; on an empty treap a single node holding [v] becomes the
    whole sequence regardless of [index].  Nothing is stated for
    [0 < index < n-1]. *)
Theorem Insert_clamping (t : Treap) (index value : Z) (g : rng) (S : list Z) :
  reachable (Some t) →
  Export (Some t) = Some S →
  Size (Some t) = 0 ∨ index <= 0 ∨ index >= Size (Some t) - 1 →
  Export (Insert (Some t) index value g).1 =
  Some (if Size (Some t) =? 0 then [value]
        else if index <=? 0 then [value] ++ S
        else S ++ [value]).
Proof.
  intros Hr HS Hcase.
  pose proof (reachable_size_inv _ Hr) as Hinv.
  rewrite (Export_seq_of _ Hinv) in HS. injection HS as <-.
  rewrite Export_seq_of
    by (by apply reachable_size_inv, reach_Insert).
  pose proof (PushFront_seq_of t [value] g) as HF.
  pose proof (PushBack_seq_of t [value] g) as HB.
  unfold Insert, Size in *. simpl in Hinv.
  destruct (root t) as [|v s p l r] eqn:Hroot; [done|].
  pose proof (size_inv_nonneg _ Hinv) as Hs. simpl in Hs.
  destruct Hinv as (Hs1 & Hl & Hrr).
  pose proof (size_inv_nonneg _ Hl). pose proof (size_inv_nonneg _ Hrr).
  destruct (Z.eqb_spec s 0); [lia|].
  destruct (Z.leb_spec index 0); [by rewrite HF|].
  destruct (Z.geb_spec index (s - 1)); [by rewrite HB | lia].
Qed.

Lemma Insert_clamping_witness :
  Export (Insert (Some (mkTreap (new_node 30 7))) 1 99 (draws [5])).1 =
  Some (if Size (Some (mkTreap (new_node 30 7))) =? 0 then [99]
        else if 1 <=? 0 then [99] ++ [30]
        else [30] ++ [99]).
Proof.
  apply (Insert_clamping (mkTreap (new_node 30 7)) 1 99 (draws [5]) [30]).
  - exact (reach_Create [30] (draws [7])).
  - reflexivity.
  - right. right. vm_compute. discriminate.
Defined.

(** ** C8 *)

(** C8.  Graceful degradation: every public operation on a nil handle
    returns (the mutating ones do nothing, [Size] and [Find] return [0],
    [Export] returns the nil slice, [Merge] returns its other argument,
    [Split] returns two nil handles); [Delete] and [Find] with a negative
    or past-end index, and [Cut] with an inverted range, [right < 0] or
    [left >= size], return as well: [Delete] and [Cut] leave the handle,
    hence the sequence, as it was, and [Find] returns [0].  All these
    functions are total, and [Export], the only one that can panic, returns
    the nil slice on a nil handle. *)
Theorem graceful_degradation (t : handle) (index left right : Z) :
  index < 0 ∨ index >= Size t →
  left > right ∨ right < 0 ∨ left >= Size t →
  ((∀ i v g, Insert None i v g = (None, g)) ∧
   (∀ values g, PushFront None values g = (None, g)) ∧
   (∀ values g, PushBack None values g = (None, g)) ∧
   (∀ l r, Cut None l r = None) ∧
   (∀ i, Delete None i = None) ∧
   Size None = 0 ∧
   (∀ i, Find None i = 0) ∧
   Export None = Some [] ∧
   (∀ t2, Merge None t2 = t2) ∧
   (∀ t1, Merge t1 None = t1) ∧
   (∀ k, Split None k = (None, None))) ∧
  (Delete t index = t ∧ Export (Delete t index) = Export t) ∧
  Find t index = 0 ∧
  (Cut t left right = t ∧ Export (Cut t left right) = Export t).
Proof.
  intros Hi Hc.
  assert (HD : Delete t index = t).
  { unfold Delete, Size in *.
    destruct t as [t|]; [|done].
    destruct (root t) as [|v s p l r]; [done|].
    destruct (Z.ltb_spec index 0); [done|].
    destruct (Z.geb_spec index s); [done|]. lia. }
  assert (HC : Cut t left right = t).
  { unfold Cut, Size in *.
    destruct t as [t|]; [|done].
    destruct (root t) as [|v s p l r]; [done|].
    destruct (Z.gtb_spec left right); [done|].
    destruct (Z.ltb_spec right 0); [done|].
    destruct (Z.geb_spec left s); [done|]. lia. }
  rewrite HD, HC.
  split; [|split; [done|split; [|done]]].
  - repeat split; try done. by intros [?|].
  - unfold Find, Size in *.
    destruct t as [t|]; [|done].
    destruct (root t) as [|v s p l r]; [done|].
    destruct (Z.ltb_spec index 0); [done|].
    destruct (Z.geb_spec index s); [done|]. lia.
Qed.

Lemma graceful_degradation_witness :
  (Delete chain3 3 = chain3 ∧ Export (Delete chain3 3) = Export chain3) ∧
  Find chain3 3 = 0 ∧
  (Cut chain3 2 1 = chain3 ∧ Export (Cut chain3 2 1) = Export chain3).
Proof.
  apply (graceful_degradation chain3 3 2 1).
  - right. vm_compute. discriminate.
  - left. reflexivity.
Defined.

(** ** C9 *)

(** C9.  Delete/Cut consistency: for every handle (the nil handle and the
    empty treap included) and every integer [i], [Delete(i)] leaves the
    handle exactly as [Cut(i, i)] would, hence with the same sequence,
    no-op cases included. *)
Theorem Delete_Cut_consistency (t : handle) (i : Z) :
  Delete t i = Cut t i i ∧ Export (Delete t i) = Export (Cut t i i).
Proof.
  enough (Delete t i = Cut t i i) as -> by done.
  unfold Delete, Cut.
  destruct t as [t|]; [|done].
  destruct (root t) as [|v s p l r]; [done|].
  destruct (Z.gtb_spec i i); [lia|]. done.
Qed.

(** ** C10 *)

Lemma chain3_store_represents :
  represents Store.chain3_store (Some 1%positive) chain3.
Proof.
  exists ({[2%positive]} ∪ ∅ ∪ ({[3%positive]} ∪ ∅ ∪ ({[4%positive]} ∪ ∅ ∪ ∅))).
  apply (Store.handle_treap _ 1%positive (Some 2%positive)); [done|].
  apply (Store.tree_node _ 2%positive
           (Store.mkCell 10 3 3 None (Some 3%positive)));
    [done | constructor | | set_solver | set_solver | set_solver].
  apply (Store.tree_node _ 3%positive
           (Store.mkCell 20 2 2 None (Some 4%positive)));
    [done | constructor | | set_solver | set_solver | set_solver].
  apply (Store.tree_node _ 4%positive (Store.mkCell 30 1 1 None None));
    [done | constructor | constructor | set_solver | set_solver | set_solver].
Qed.

(** C10.  Read operations are pure: on a store in which the handle stands
    for a treap with consistent sizes, [Find(i)] for any integer [i],
    [Size()] and [Export()] return what the tree embedding computes and
    hand back the very store they were given: the root pointer of every
    [Treap] and the value, priority, size and two sons of every node are
    what they were before the call, and so is the represented sequence. *)
Theorem reads_are_pure
    (st : Store.store) (t : Store.ptr) (h : handle) (index : Z) (fuel : nat) :
  represents st t h →
  handle_inv size_inv h →
  (handle_height h < fuel)%nat →
  Store.Find fuel t index st = Some (Find h index, st) ∧
  Store.Size t st = Some (Size h, st) ∧
  ∃ values, Export h = Some values ∧
            Store.Export fuel t st = Some (values, st).
Proof.
  intros Hrep Hinv Hfuel. split; [|split].
  - by apply Find_store.
  - by apply Size_store.
  - exists (seq_of h). split; [by apply Export_seq_of|].
    rewrite (Export_store st t h fuel Hrep Hfuel).
    by rewrite (Export_seq_of h Hinv).
Qed.

Lemma reads_are_pure_witness :
  Store.Find 4 (Some 1%positive) 1 Store.chain3_store
    = Some (Find chain3 1, Store.chain3_store) ∧
  Store.Size (Some 1%positive) Store.chain3_store
    = Some (Size chain3, Store.chain3_store) ∧
  ∃ values, Export chain3 = Some values ∧
            Store.Export 4 (Some 1%positive) Store.chain3_store
              = Some (values, Store.chain3_store).
Proof.
  apply (reads_are_pure Store.chain3_store (Some 1%positive) chain3 1 4).
  - exact chain3_store_represents.
  - vm_compute. repeat split.
  - vm_compute. lia.
Defined.

(** * Further properties of the package *)

(** ** Building and reading *)

(** X1.  [Create(values...)] builds a treap whose [Export] is [values], in
    the order given, and whose [Size] is their number, whatever the
    priorities drawn. *)
Theorem Create_roundtrip (values : list Z) (g : rng) :
  Export (Create values g).1 = Some values ∧
  Size (Create values g).1 = Z.of_nat (length values).
Proof.
  assert (Hinv : handle_inv size_inv (Create values g).1)
    by by apply PushBack_size_inv.
  assert (Hs : seq_of (Create values g).1 = values)
    by apply (PushBack_seq_of (mkTreap Nil)).
  by rewrite (Export_seq_of _ Hinv), (Size_length _ Hinv), Hs.
Qed.

(** X2.  On the treap built by [Create(values...)], [Find(i)] returns the
    [i]-th of the values for every [i] in range. *)
Theorem Find_Create (values : list Z) (g : rng) (i : Z) :
  0 <= i < Z.of_nat (length values) →
  Find (Create values g).1 i = nth (Z.to_nat i) values 0.
Proof.
  intros Hi. unfold Create.
  rewrite Find_PushBack by (done || (simpl; lia)).
  simpl Size. destruct (Z.ltb_spec i 0); [lia|]. by rewrite Z.sub_0_r.
Qed.

Lemma Find_Create_witness :
  Find (Create [10; 20; 30] (draws [3; 2; 1])).1 1
  = nth (Z.to_nat 1) [10; 20; 30] 0.
Proof.
  apply (Find_Create [10; 20; 30] (draws [3; 2; 1]) 1).
  simpl. lia.
Defined.

(** X3.  On every treap the API can produce, [Size()] is the length of
    the slice [Export()] returns, and [Export] does not panic. *)
Theorem Size_is_Export_length (t : handle) :
  reachable t →
  ∃ values, Export t = Some values ∧ Size t = Z.of_nat (length values).
Proof.
  intros Hr. pose proof (reachable_size_inv _ Hr) as Hinv.
  exists (seq_of t). split; [by apply Export_seq_of | by apply Size_length].
Qed.

Lemma Size_is_Export_length_witness :
  ∃ values, Export chain3 = Some values ∧
            Size chain3 = Z.of_nat (length values).
Proof. apply (Size_is_Export_length chain3). apply reach_Create. Defined.

(** ** Merge and Split *)

(** X4.  [Merge(t1, t2)] holds the sequence of [t1] followed by the
    sequence of [t2], and its size is the sum of the two sizes. *)
Theorem Merge_concatenates (t1 t2 : handle) :
  reachable t1 → reachable t2 →
  ∃ S1 S2,
    Export t1 = Some S1 ∧ Export t2 = Some S2 ∧
    Export (Merge t1 t2) = Some (S1 ++ S2) ∧
    Size (Merge t1 t2) = Size t1 + Size t2.
Proof.
  intros H1 H2.
  pose proof (reachable_size_inv _ H1) as Hi1.
  pose proof (reachable_size_inv _ H2) as Hi2.
  assert (Hi : handle_inv size_inv (Merge t1 t2))
    by by apply reachable_size_inv, reach_Merge.
  exists (seq_of t1), (seq_of t2).
  rewrite !Export_seq_of, !Size_length, Merge_seq_of, length_app by done.
  repeat split. lia.
Qed.

Lemma Merge_concatenates_witness :
  ∃ S1 S2,
    Export chain3 = Some S1 ∧ Export lchain4 = Some S2 ∧
    Export (Merge chain3 lchain4) = Some (S1 ++ S2) ∧
    Size (Merge chain3 lchain4) = Size chain3 + Size lchain4.
Proof.
  apply (Merge_concatenates chain3 lchain4); apply reach_Create.
Defined.

(** X5.  [Split(t, index)] cuts the sequence in two without losing or
    reordering anything.  For a negative [index] the left part is empty;
    for [index = 0] it is exactly the first element; otherwise it holds at
    least the first [index + 1] elements (all of them when there are
    fewer), possibly more. *)
Theorem Split_partitions (t : handle) (index : Z) :
  reachable t →
  ∃ S1 S2,
    Export (Split t index).1 = Some S1 ∧
    Export (Split t index).2 = Some S2 ∧
    Export t = Some (S1 ++ S2) ∧
    if index <? 0 then S1 = []
    else if index =? 0 then S1 = take 1 (S1 ++ S2)
    else Z.min (index + 1) (Size t) <= Z.of_nat (length S1).
Proof.
  intros Hr. pose proof (reachable_size_inv _ Hr) as Hinv.
  exists (seq_of (Split t index).1), (seq_of (Split t index).2).
  rewrite !Export_seq_of, Split_seq_of;
    [| done | by apply reachable_size_inv, reach_Split_r
     | by apply reachable_size_inv, reach_Split_l].
  do 3 (split; [done|]).
  destruct t as [t|]; [|simpl; repeat case_match; try done; lia].
  simpl in Hinv.
  destruct (split_size_inv (root t) index Hinv) as [H1 _].
  pose proof (size_inv_length _ H1) as Hlen.
  assert (Hsz : Size (Some t) = size_of (root t))
    by (unfold Size; by destruct (root t)).
  rewrite Hsz. clear Hsz.
  destruct (split_take_drop (root t) index Hinv) as [Htake _].
  pose proof (split_inorder (root t) index) as Hsp.
  pose proof (split_neg (root t) index) as Hneg.
  pose proof (split_left_bound (root t) index Hinv) as Hb.
  assert (Hz : index = 0 → root t ≠ Nil →
               size_of (split (root t) index).1 = 1)
    by (intros ->; by apply split_zero_size).
  unfold Split. destruct (split (root t) index) as [a b].
  cbn [fst snd seq_of root] in *.
  destruct (Z.ltb_spec index 0).
  { by injection (Hneg ltac:(lia)) as -> _. }
  destruct (Z.eqb_spec index 0) as [Hi0|]; [|lia].
  destruct (root t) as [|v s p l r] eqn:Hroot.
  { simpl in Hsp. by destruct (inorder a). }
  by rewrite Htake, Hz.
Qed.

Lemma Split_partitions_witness :
  ∃ S1 S2,
    Export (Split chain3 1).1 = Some S1 ∧
    Export (Split chain3 1).2 = Some S2 ∧
    Export chain3 = Some (S1 ++ S2) ∧
    if 1 <? 0 then S1 = []
    else if 1 =? 0 then S1 = take 1 (S1 ++ S2)
    else Z.min (1 + 1) (Size chain3) <= Z.of_nat (length S1).
Proof. apply (Split_partitions chain3 1). apply reach_Create. Defined.

(** ** Deleting *)

(** X6.  [Delete(0)] removes exactly the first element, whatever the shape
    of the tree; on an empty treap or a nil handle it does nothing. *)
Theorem Delete_front (t : handle) :
  reachable t →
  ∃ S, Export t = Some S ∧ Export (Delete t 0) = Some (drop 1 S).
Proof.
  intros Hr. pose proof (reachable_size_inv _ Hr) as Hinv.
  exists (seq_of t). split; [by apply Export_seq_of|].
  rewrite Export_seq_of by by apply reachable_size_inv, reach_Delete.
  by rewrite Delete_zero_seq_of.
Qed.

Lemma Delete_front_witness :
  ∃ S, Export chain3 = Some S ∧ Export (Delete chain3 0) = Some (drop 1 S).
Proof. apply (Delete_front chain3). apply reach_Create. Defined.

(** X7.  Calling [Delete(0)] as many times as [Size()] says empties the
    treap: [Export] then returns nothing and [Size] returns [0]. *)
Theorem Delete_front_drains (t : handle) :
  reachable t →
  Export (Nat.iter (Z.to_nat (Size t)) (λ h, Delete h 0) t) = Some [] ∧
  Size (Nat.iter (Z.to_nat (Size t)) (λ h, Delete h 0) t) = 0.
Proof.
  intros Hr. pose proof (reachable_size_inv _ Hr) as Hinv.
  destruct (iter_Delete_zero (Z.to_nat (Size t)) t Hr) as [Hr' Hs].
  pose proof (reachable_size_inv _ Hr') as Hinv'.
  rewrite (Size_length _ Hinv), Nat2Z.id, drop_all in Hs.
  rewrite (Size_length _ Hinv), Nat2Z.id in Hinv'.
  rewrite (Size_length t Hinv), Nat2Z.id.
  by rewrite (Export_seq_of _ Hinv'), (Size_length _ Hinv'), Hs.
Qed.

Lemma Delete_front_drains_witness :
  Export (Nat.iter (Z.to_nat (Size chain3)) (λ h, Delete h 0) chain3)
    = Some [] ∧
  Size (Nat.iter (Z.to_nat (Size chain3)) (λ h, Delete h 0) chain3) = 0.
Proof. apply (Delete_front_drains chain3). apply reach_Create. Defined.

(** X8.  [Cut(0, right)] with [right] at or past the last index removes
    every element. *)
Theorem Cut_from_front_clears (t : handle) (right : Z) :
  reachable t →
  Size t - 1 <= right →
  Export (Cut t 0 right) = Some [] ∧ Size (Cut t 0 right) = 0.
Proof.
  intros Hr Hright. pose proof (reachable_size_inv _ Hr) as Hinv.
  assert (Hinv' : handle_inv size_inv (Cut t 0 right))
    by by apply reachable_size_inv, reach_Cut.
  by rewrite (Export_seq_of _ Hinv'), (Size_length _ Hinv'),
       Cut_all_seq_of.
Qed.

Lemma Cut_from_front_clears_witness :
  Export (Cut chain3 0 2) = Some [] ∧ Size (Cut chain3 0 2) = 0.
Proof.
  apply (Cut_from_front_clears chain3 2).
  - apply reach_Create.
  - vm_compute. discriminate.
Defined.

(** X9.  Whatever the indices, [Cut] takes one block of consecutive
    elements (possibly empty) out of the sequence: it adds nothing,
    reorders nothing, and leaves the first [index_left] elements where
    they are. *)
Theorem Cut_removes_one_block
    (t : handle) (index_left index_right : Z) :
  reachable t →
  is_int index_left →
  ∃ pre mid suf,
    Export t = Some (pre ++ mid ++ suf) ∧
    Export (Cut t index_left index_right) = Some (pre ++ suf) ∧
    Z.min index_left (Size t) <= Z.of_nat (length pre).
Proof.
  intros Hr Hint. pose proof (reachable_size_inv _ Hr) as Hinv.
  destruct (Cut_block t index_left index_right Hinv Hint)
    as (pre & mid & suf & HS & HC & Hlen).
  exists pre, mid, suf.
  rewrite !Export_seq_of, HS, HC;
    [done | by apply reachable_size_inv, reach_Cut | done].
Qed.

Lemma Cut_removes_one_block_witness :
  ∃ pre mid suf,
    Export lchain4 = Some (pre ++ mid ++ suf) ∧
    Export (Cut lchain4 1 1) = Some (pre ++ suf) ∧
    Z.min 1 (Size lchain4) <= Z.of_nat (length pre).
Proof.
  apply (Cut_removes_one_block lchain4 1 1).
  - apply reach_Create.
  - unfold is_int. lia.
Defined.

(** X10.  A negative [index_left], other than the least [int], counts as
    [0]: [Cut(index_left, index_right)] does what [Cut(0, index_right)]
    does. *)
Theorem Cut_clamps_negative_left
    (t : handle) (index_left index_right : Z) :
  reachable t →
  - 2 ^ 63 < index_left < 0 →
  Cut t index_left index_right = Cut t 0 index_right.
Proof.
  intros Hr. apply Cut_negative_left. by apply reachable_size_inv.
Qed.

Lemma Cut_clamps_negative_left_witness :
  Cut chain3 (-5) 0 = Cut chain3 0 0.
Proof.
  apply (Cut_clamps_negative_left chain3 (-5) 0).
  - apply reach_Create.
  - lia.
Defined.

(** X11.  With [index_left] the least [int] ([-2^63]), the subtraction
    [index_left - 1] wraps around to the greatest [int], the first [split]
    keeps everything on the left, and [Cut] removes nothing, whatever
    [index_right] is. *)
Theorem Cut_least_int_is_noop (t : handle) (index_right : Z) :
  reachable t →
  Size t < 2 ^ 63 →
  Cut t (- 2 ^ 63) index_right = t.
Proof.
  intros Hr. apply Cut_min_int. by apply reachable_size_inv.
Qed.

Lemma Cut_least_int_is_noop_witness :
  Cut chain3 (- 2 ^ 63) 1 = chain3.
Proof.
  apply (Cut_least_int_is_noop chain3 1).
  - apply reach_Create.
  - vm_compute. reflexivity.
Defined.

(** ** Inserting *)

(** X12.  [Insert(index, value)] adds exactly one element and keeps the
    others in their order; the new value never lands before position
    [index] (before position [0] when [index] is negative, before the end
    when [index] is past it). *)
Theorem Insert_adds_one (t : Treap) (index value : Z) (g : rng) :
  reachable (Some t) →
  is_int index →
  ∃ pre suf,
    Export (Some t) = Some (pre ++ suf) ∧
    Export (Insert (Some t) index value g).1 = Some (pre ++ [value] ++ suf) ∧
    Z.min (Z.max index 0) (Size (Some t)) <= Z.of_nat (length pre) ∧
    Size (Insert (Some t) index value g).1 = Size (Some t) + 1.
Proof.
  intros Hr Hint. pose proof (reachable_size_inv _ Hr) as Hinv.
  assert (Hinv' : handle_inv size_inv (Insert (Some t) index value g).1)
    by by apply reachable_size_inv, reach_Insert.
  destruct (Insert_seq_of t index value g Hinv Hint)
    as (pre & suf & HS & HI & Hlen).
  exists pre, suf.
  rewrite (Export_seq_of _ Hinv), (Export_seq_of _ Hinv').
  rewrite (Size_length _ Hinv'), (Size_length (Some t) Hinv), HI.
  rewrite (Size_length (Some t) Hinv) in Hlen.
  cbn [seq_of] in *. rewrite HS, !length_app in *. simpl.
  repeat split; lia.
Qed.

Lemma Insert_adds_one_witness :
  ∃ pre suf,
    Export chain3 = Some (pre ++ suf) ∧
    Export (Insert chain3 1 99 (draws [7])).1 = Some (pre ++ [99] ++ suf) ∧
    Z.min (Z.max 1 0) (Size chain3) <= Z.of_nat (length pre) ∧
    Size (Insert chain3 1 99 (draws [7])).1 = Size chain3 + 1.
Proof.
  apply (Insert_adds_one
           (mkTreap (Node 10 3 3 Nil (Node 20 2 2 Nil (Node 30 1 1 Nil Nil))))
           1 99 (draws [7])).
  - exact (reach_Create [10; 20; 30] (draws [3; 2; 1])).
  - unfold is_int. lia.
Defined.

(** X13.  [Insert] at an index at or before the front is [PushFront] of
    the one value, and at an index at or past the last one it is
    [PushBack]: the same tree results and the same random number is
    drawn.  In particular [Insert(0, v)] is [PushFront(v)] and
    [Insert(Size(), v)] is [PushBack(v)]. *)
Theorem Insert_is_Push (t : handle) (index value : Z) (g : rng) :
  reachable t →
  index <= 0 ∨ index >= Size t - 1 →
  Insert t index value g =
  if index <=? 0 then PushFront t [value] g else PushBack t [value] g.
Proof.
  intros Hr. apply Insert_as_Push. by apply reachable_size_inv.
Qed.

Lemma Insert_is_Push_witness :
  Insert chain3 3 99 (draws [7]) =
  if 3 <=? 0 then PushFront chain3 [99] (draws [7])
  else PushBack chain3 [99] (draws [7]).
Proof.
  apply (Insert_is_Push chain3 3 99 (draws [7])).
  - apply reach_Create.
  - right. vm_compute. discriminate.
Defined.

(** X14.  After [PushBack(values...)], [Find] returns the old elements at
    their old indices and the pushed values after them; after
    [PushFront(values...)], it returns the pushed values, last one first,
    and then the old elements moved up by the number of values. *)
Theorem Find_after_Push (t : Treap) (values : list Z) (g : rng) (i : Z) :
  reachable (Some t) →
  0 <= i < Size (Some t) + Z.of_nat (length values) →
  Find (PushBack (Some t) values g).1 i =
    (if i <? Size (Some t) then Find (Some t) i
     else nth (Z.to_nat (i - Size (Some t))) values 0) ∧
  Find (PushFront (Some t) values g).1 i =
    (if i <? Z.of_nat (length values) then nth (Z.to_nat i) (rev values) 0
     else Find (Some t) (i - Z.of_nat (length values))).
Proof.
  intros Hr Hi. pose proof (reachable_size_inv _ Hr) as Hinv.
  split; [by apply Find_PushBack | by apply Find_PushFront].
Qed.

Lemma Find_after_Push_witness :
  Find (PushBack chain3 [7; 8] (draws [5; 6])).1 3 =
    (if 3 <? Size chain3 then Find chain3 3
     else nth (Z.to_nat (3 - Size chain3)) [7; 8] 0) ∧
  Find (PushFront chain3 [7; 8] (draws [5; 6])).1 3 =
    (if 3 <? Z.of_nat (length [7; 8]) then nth (Z.to_nat 3) (rev [7; 8]) 0
     else Find chain3 (3 - Z.of_nat (length [7; 8]))).
Proof.
  apply (Find_after_Push
           (mkTreap (Node 10 3 3 Nil (Node 20 2 2 Nil (Node 30 1 1 Nil Nil))))
           [7; 8] (draws [5; 6]) 3).
  - exact (reach_Create [10; 20; 30] (draws [3; 2; 1])).
  - simpl. lia.
Defined.

(** X15.  [PushFront(v)] followed by [Delete(0)] gives back the sequence
    the treap held before. *)
Theorem PushFront_Delete_roundtrip (t : handle) (value : Z) (g : rng) :
  reachable t →
  Export (Delete (PushFront t [value] g).1 0) = Export t.
Proof.
  intros Hr. pose proof (reachable_size_inv _ Hr) as Hinv.
  assert (Hr' : reachable (PushFront t [value] g).1)
    by by apply reach_PushFront.
  rewrite !Export_seq_of, Delete_zero_seq_of;
    [| by apply reachable_size_inv | done
     | by apply reachable_size_inv, reach_Delete].
  destruct t as [t|]; [|done].
  by rewrite PushFront_seq_of.
Qed.

Lemma PushFront_Delete_roundtrip_witness :
  Export (Delete (PushFront chain3 [99] (draws [7])).1 0) = Export chain3.
Proof.
  apply (PushFront_Delete_roundtrip chain3 99 (draws [7])).
  apply reach_Create.
Defined.

(** X16.  Without values, [Create()] builds the empty treap ([Size] is
    [0], [Export] returns nothing, [Find] returns [0] at every index and no
    random number is drawn), and [PushFront()] and [PushBack()] leave any
    handle as it is and draw no random number. *)
Theorem Push_nothing (t : handle) (g : rng) (i : Z) :
  (Create [] g = (Some (mkTreap Nil), g) ∧
   Size (Create [] g).1 = 0 ∧
   Export (Create [] g).1 = Some [] ∧
   Find (Create [] g).1 i = 0) ∧
  PushFront t [] g = (t, g) ∧
  PushBack t [] g = (t, g).
Proof.
  split; [done|].
  destruct t as [t|]; [|done]. simpl.
  by rewrite merge_Nil_l, merge_Nil_r, Treap_eta.
Qed.

(** ** The slice of [export] *)

(** X17.  On a non-empty tree with consistent sizes, [export] returns
    exactly when [position] is not negative and the slice has room for
    the whole tree from [position] on; otherwise it panics with an index
    out of range. *)
Theorem export_panics_iff (n : node) (values : list Z) (position : Z) :
  size_inv n → n ≠ Nil →
  is_Some (export values position n) ↔
  0 <= position ∧ position + size_of n <= Z.of_nat (length values).
Proof.
  intros Hinv Hn. split.
  - intros [values' Hex].
    destruct (decide (position < 0 ∨
                      Z.of_nat (length values) < position + size_of n))
      as [Hbad|Hok]; [|lia].
    by rewrite (export_None n Hinv Hn values position Hbad) in Hex.
  - intros [Hp Hlen].
    destruct (export_Some n values position Hinv Hp Hlen) as (values' & -> & _).
    by eexists.
Qed.

Lemma export_panics_iff_witness :
  is_Some (export [0; 0] 0 (Node 10 3 3 Nil (Node 20 2 2 Nil (Node 30 1 1 Nil Nil))))
  ↔ 0 <= 0 ∧
    0 + size_of (Node 10 3 3 Nil (Node 20 2 2 Nil (Node 30 1 1 Nil Nil)))
      <= Z.of_nat (length [0; 0]).
Proof.
  apply (export_panics_iff
           (Node 10 3 3 Nil (Node 20 2 2 Nil (Node 30 1 1 Nil Nil)))
           [0; 0] 0).
  - simpl. repeat split.
  - discriminate.
Defined.

(** ** In place, over the store *)

(** X18.  Run on two trees that share no node, the in-place [merge]
    returns, given fuel beyond the two heights; the pointer it returns is
    the root of the tree the tree embedding computes, built from the very
    nodes of the two arguments and holding the first sequence followed by
    the second; no [Treap] struct and no node outside the two trees is
    written. *)
Theorem merge_in_place
    (n1 n2 : node) (st : Store.store) (p1 p2 : Store.ptr)
    (F1 F2 : gset Store.addr) (fuel : nat) :
  Store.tree_at (Store.nodes st) p1 n1 F1 →
  Store.tree_at (Store.nodes st) p2 n2 F2 →
  F1 ## F2 →
  (height n1 + height n2 < fuel)%nat →
  ∃ p st',
    Store.merge fuel p1 p2 st = Some (p, st') ∧
    Store.tree_at (Store.nodes st') p (merge n1 n2) (F1 ∪ F2) ∧
    inorder (merge n1 n2) = inorder n1 ++ inorder n2 ∧
    Store.same_outside (F1 ∪ F2) st st'.
Proof.
  intros H1 H2 Hdisj Hfuel.
  destruct (merge_store n1 n2 st p1 p2 F1 F2 fuel H1 H2 Hdisj Hfuel)
    as (p & st' & Hrun & Htree & Hout).
  exists p, st'. split; [done|]. split; [done|].
  split; [apply merge_inorder | done].
Qed.

Lemma merge_in_place_witness :
  ∃ p st',
    Store.merge 5 (Some 2%positive) (Some 5%positive) two_trees_store
      = Some (p, st') ∧
    Store.tree_at (Store.nodes st') p
      (merge (Node 10 3 3 Nil (Node 20 2 2 Nil (Node 30 1 1 Nil Nil)))
         (Node 40 1 5 Nil Nil))
      (chain3_addrs ∪ ({[5%positive]} ∪ ∅ ∪ ∅)) ∧
    inorder
      (merge (Node 10 3 3 Nil (Node 20 2 2 Nil (Node 30 1 1 Nil Nil)))
         (Node 40 1 5 Nil Nil))
    = inorder (Node 10 3 3 Nil (Node 20 2 2 Nil (Node 30 1 1 Nil Nil)))
      ++ inorder (Node 40 1 5 Nil Nil) ∧
    Store.same_outside (chain3_addrs ∪ ({[5%positive]} ∪ ∅ ∪ ∅))
      two_trees_store st'.
Proof.
  apply (merge_in_place _ _ two_trees_store (Some 2%positive)
           (Some 5%positive) chain3_addrs ({[5%positive]} ∪ ∅ ∪ ∅) 5).
  - exact two_trees_chain.
  - exact two_trees_single.
  - exact two_trees_apart.
  - simpl. lia.
Defined.

(** X19.  Run on a tree, the in-place [split] returns, given fuel beyond
    the height; the two pointers it returns are the roots of the two trees
    the tree embedding computes; the two trees share no node, are made of
    the nodes of the argument and hold its sequence cut in two; no [Treap]
    struct and no node outside the argument is written. *)
Theorem split_in_place
    (n : node) (index : Z) (st : Store.store) (p : Store.ptr)
    (F : gset Store.addr) (fuel : nat) :
  Store.tree_at (Store.nodes st) p n F →
  (height n < fuel)%nat →
  ∃ pl pr st' Fl Fr,
    Store.split fuel p index st = Some ((pl, pr), st') ∧
    Store.tree_at (Store.nodes st') pl (split n index).1 Fl ∧
    Store.tree_at (Store.nodes st') pr (split n index).2 Fr ∧
    Fl ## Fr ∧ Fl ∪ Fr = F ∧
    inorder (split n index).1 ++ inorder (split n index).2 = inorder n ∧
    Store.same_outside F st st'.
Proof.
  intros Hp Hfuel.
  destruct (split_store n index st p F fuel Hp Hfuel)
    as (pl & pr & st' & Fl & Fr & Hrun & Hl & Hr & Hdisj & HF & Hout).
  exists pl, pr, st', Fl, Fr. do 5 (split; [done|]).
  split; [apply split_inorder | done].
Qed.

Lemma split_in_place_witness :
  ∃ pl pr st' Fl Fr,
    Store.split 4 (Some 2%positive) 0 two_trees_store
      = Some ((pl, pr), st') ∧
    Store.tree_at (Store.nodes st') pl
      (split (Node 10 3 3 Nil (Node 20 2 2 Nil (Node 30 1 1 Nil Nil))) 0).1
      Fl ∧
    Store.tree_at (Store.nodes st') pr
      (split (Node 10 3 3 Nil (Node 20 2 2 Nil (Node 30 1 1 Nil Nil))) 0).2
      Fr ∧
    Fl ## Fr ∧ Fl ∪ Fr = chain3_addrs ∧
    inorder
      (split (Node 10 3 3 Nil (Node 20 2 2 Nil (Node 30 1 1 Nil Nil))) 0).1
    ++ inorder
      (split (Node 10 3 3 Nil (Node 20 2 2 Nil (Node 30 1 1 Nil Nil))) 0).2
    = inorder (Node 10 3 3 Nil (Node 20 2 2 Nil (Node 30 1 1 Nil Nil))) ∧
    Store.same_outside chain3_addrs two_trees_store st'.
Proof.
  apply (split_in_place _ 0 two_trees_store (Some 2%positive)
           chain3_addrs 4).
  - exact two_trees_chain.
  - simpl. lia.
Defined.

(** X20.  [sync] on a node whose two sons are roots of two trees that
    share no node and do not contain it returns, sets the node's [size] to
    one plus the cached sizes of the sons, and changes nothing else: not
    the node's value, priority or sons, and no other node.  Afterwards the
    node is the root of a tree whose cached size is right at the root. *)
Theorem sync_in_place
    (st : Store.store) (a : Store.addr) (c : Store.cell) (l r : node)
    (Fl Fr : gset Store.addr) :
  Store.nodes st !! a = Some c →
  Store.tree_at (Store.nodes st) (Store.c_lson c) l Fl →
  Store.tree_at (Store.nodes st) (Store.c_rson c) r Fr →
  a ∉ Fl → a ∉ Fr → Fl ## Fr →
  Store.sync (Some a) st =
  Some ((), upd st a (Store.mkCell (Store.c_value c)
                        (1 + size_of l + size_of r) (Store.c_priority c)
                        (Store.c_lson c) (Store.c_rson c))) ∧
  Store.tree_at
    (Store.nodes
       (upd st a (Store.mkCell (Store.c_value c)
                    (1 + size_of l + size_of r) (Store.c_priority c)
                    (Store.c_lson c) (Store.c_rson c))))
    (Some a)
    (Node (Store.c_value c) (1 + size_of l + size_of r)
       (Store.c_priority c) l r)
    ({[a]} ∪ Fl ∪ Fr).
Proof.
  intros Ha Hl Hr Hal Har Hd. split; [by apply (sync_store _ _ _ l r Fl Fr)|].
  apply (Store.tree_node _ a
           (Store.mkCell (Store.c_value c) (1 + size_of l + size_of r)
              (Store.c_priority c) (Store.c_lson c) (Store.c_rson c))
           l r Fl Fr); simpl; try done.
  - apply upd_lookup.
  - by apply tree_at_upd.
  - by apply tree_at_upd.
Qed.

Lemma sync_in_place_witness :
  Store.sync (Some 2%positive) two_trees_store =
  Some ((), upd two_trees_store 2%positive
              (Store.mkCell 10
                 (1 + size_of Nil
                  + size_of (Node 20 2 2 Nil (Node 30 1 1 Nil Nil)))
                 3 None (Some 3%positive))) ∧
  Store.tree_at
    (Store.nodes
       (upd two_trees_store 2%positive
          (Store.mkCell 10
             (1 + size_of Nil
              + size_of (Node 20 2 2 Nil (Node 30 1 1 Nil Nil)))
             3 None (Some 3%positive))))
    (Some 2%positive)
    (Node 10
       (1 + size_of Nil + size_of (Node 20 2 2 Nil (Node 30 1 1 Nil Nil)))
       3 Nil (Node 20 2 2 Nil (Node 30 1 1 Nil Nil)))
    ({[2%positive]} ∪ ∅ ∪ ({[3%positive]} ∪ ∅ ∪ ({[4%positive]} ∪ ∅ ∪ ∅))).
Proof.
  apply (sync_in_place two_trees_store 2%positive
           (Store.mkCell 10 3 3 None (Some 3%positive))
           Nil (Node 20 2 2 Nil (Node 30 1 1 Nil Nil))
           ∅ ({[3%positive]} ∪ ∅ ∪ ({[4%positive]} ∪ ∅ ∪ ∅))).
  - reflexivity.
  - constructor.
  - exact two_trees_inner.
  - set_solver.
  - set_solver.
  - set_solver.
Defined.
